(** * contacts-cli: the contact sync pipeline, embedded and verified

    Shallow embedding of [bin/contacts.js], [bin/contact-groups.js],
    [bin/auth.js] and the [contacts import] action of [bin/index.js].

    JavaScript objects that the code mutates live in an explicit heap; the
    values nested below a record (what [JSON.parse] produced) are trees.
    Code that can throw runs in a small state-and-exception monad over that
    heap.  Promises that are started without being awaited are kept in an
    explicit in-flight queue with a logical clock in milliseconds. *)

From stdpp Require Import gmap strings list.
From Stdlib Require Import ZArith.

Set Warnings "-register-all".
Local Open Scope string_scope.

(* ===================================================================== *)
(** ** JavaScript values *)
(* ===================================================================== *)

(** A value produced by [JSON.parse].  Numbers are never inspected by the
    code except for truthiness, so an integer stands for them. *)
Inductive json : Type :=
  | JNull
  | JBool (b : bool)
  | JNum (n : Z)
  | JStr (s : string)
  | JArr (elems : list json)
  | JObj (props : list (string * json)).

(** The own properties of an object, in [Object.keys] order. *)
Abbreviation object := (list (string * json)).

(** What a property read gives: [None] is [undefined]. *)
Abbreviation value := (option json).

Inductive exn : Type :=
  | TypeError
  | SyntaxError
  | SystemError (code : string)
  | TransportError (message : string).

Inductive completion (A : Type) : Type :=
  | Normal (a : A)
  | Throw (e : exn).
Arguments Normal {A} a.
Arguments Throw {A} e.

(** Strong induction principle: the nested lists carry the hypothesis. *)
Fixpoint json_rect' (P : json -> Type)
    (Q : list json -> Type) (R : object -> Type)
    (HNull : P JNull) (HBool : forall b, P (JBool b))
    (HNum : forall n, P (JNum n)) (HStr : forall s, P (JStr s))
    (HArr : forall l, Q l -> P (JArr l))
    (HObj : forall ps, R ps -> P (JObj ps))
    (Qnil : Q []) (Qcons : forall x l, P x -> Q l -> Q (x :: l))
    (Rnil : R []) (Rcons : forall k x ps, P x -> R ps -> R ((k, x) :: ps))
    (v : json) {struct v} : P v :=
  match v with
  | JNull => HNull
  | JBool b => HBool b
  | JNum n => HNum n
  | JStr s => HStr s
  | JArr l =>
      HArr l ((fix go (l : list json) : Q l :=
                 match l with
                 | [] => Qnil
                 | x :: l' =>
                     Qcons x l'
                       (json_rect' P Q R HNull HBool HNum HStr HArr HObj
                          Qnil Qcons Rnil Rcons x) (go l')
                 end) l)
  | JObj ps =>
      HObj ps ((fix go (ps : object) : R ps :=
                  match ps with
                  | [] => Rnil
                  | (k, x) :: ps' =>
                      Rcons k x ps'
                        (json_rect' P Q R HNull HBool HNum HStr HArr HObj
                           Qnil Qcons Rnil Rcons x) (go ps')
                  end) ps)
  end.

Module Js.

(** [typeof v === "object"]: true of objects, arrays and [null]. *)
Definition typeof_object (v : value) : bool :=
  match v with
  | Some JNull | Some (JArr _) | Some (JObj _) => true
  | _ => false
  end.

(** ToBoolean. *)
Definition truthy (v : value) : bool :=
  match v with
  | None | Some JNull | Some (JBool false) => false
  | Some (JNum n) => negb (n =? 0)%Z
  | Some (JStr s) => negb (String.eqb s "")
  | _ => true
  end.

(** [obj[key]] on the own properties. *)
Fixpoint get_prop (key : string) (obj : object) : value :=
  match obj with
  | [] => None
  | (k, v) :: rest => if String.eqb k key then Some v else get_prop key rest
  end.

(** [delete obj[key]]. *)
Definition delete_prop (key : string) (obj : object) : object :=
  List.filter (fun kv => negb (String.eqb (fst kv) key)) obj.

(** [obj[key] = v]: an existing property keeps its place, a new one is
    added last. *)
Fixpoint set_prop (key : string) (v : json) (obj : object) : object :=
  match obj with
  | [] => [(key, v)]
  | (k, x) :: rest =>
      if String.eqb k key then (k, v) :: rest
      else (k, x) :: set_prop key v rest
  end.

(** [xs.slice(start, stop)] for indices that are not negative. *)
Definition slice {A} (start stop : nat) (xs : list A) : list A :=
  firstn (stop - start) (skipn start xs).

(** [v?.key]: [undefined] when [v] is [undefined] or [null]; the
    property of an object; [undefined] on a primitive or an array (the
    names read by the code are no built-in property). *)
Definition opt_member (v : value) (key : string) : value :=
  match v with
  | Some (JObj props) => get_prop key props
  | _ => None
  end.

(** [v.key]: as [?.], but [null] throws. *)
Definition member (v : json) (key : string) : completion value :=
  match v with
  | JNull => Throw TypeError
  | _ => Normal (opt_member (Some v) key)
  end.

End Js.

(* ===================================================================== *)
(** ** The heap and the monad of code that mutates it and may throw *)
(* ===================================================================== *)

Abbreviation loc := nat.
Abbreviation heap := (gmap nat object).

Definition M (A : Type) : Type := heap -> completion A * heap.

Definition ret {A} (a : A) : M A := fun h => (Normal a, h).
Definition throw {A} (e : exn) : M A := fun h => (Throw e, h).
Definition bind {A B} (m : M A) (k : A -> M B) : M B :=
  fun h =>
    match m h with
    | (Normal a, h') => k a h'
    | (Throw e, h') => (Throw e, h')
    end.

Notation "x <- m ;; k" := (bind m (fun x => k))
  (at level 100, m at next level, right associativity).
Notation "m ;;; k" := (bind m (fun _ => k))
  (at level 100, right associativity).

(** Lift a computation that only throws or returns. *)
Definition lift {A} (c : completion A) : M A :=
  match c with
  | Normal a => ret a
  | Throw e => throw e
  end.

Module Heap.

(** Dereference; a reference outside the heap denotes no object, and
    touching a property of it throws. *)
Definition load (l : loc) : M object :=
  fun h => match h !! l with
           | Some obj => (Normal obj, h)
           | None => (Throw TypeError, h)
           end.

Definition store (l : loc) (obj : object) : M unit :=
  fun h => (Normal tt, <[l := obj]> h).

(** [delete l.key] *)
Definition delete (l : loc) (key : string) : M unit :=
  obj <- load l ;; store l (Js.delete_prop key obj).

(** [l.key] *)
Definition get (l : loc) (key : string) : M value :=
  obj <- load l ;; ret (Js.get_prop key obj).

(** [l.key = v] *)
Definition set (l : loc) (key : string) (v : json) : M unit :=
  obj <- load l ;; store l (Js.set_prop key v obj).

End Heap.

(* ===================================================================== *)
(** ** Record sanitizer ([bin/contacts.js]) *)
(* ===================================================================== *)

Module Sanitizer.

(** The [options] argument of [processContact]: [contactGroups] is an
    array of group names, or absent. *)
Record Options : Type := { contactGroups : option (list string) }.

(** [key === "id" || key === "resourceName"] *)
Definition identity_key (key : string) : bool :=
  String.eqb key "id" || String.eqb key "resourceName".

(** [objectCleaner(obj)], on the tree below [obj].  The result is the
    tree as the call leaves it, and the exception if one was thrown:
    [Object.keys(null)] throws, and [typeof null] is ["object"].  A
    deleted key reads [undefined] afterwards and is not descended into.
    The indices of an array are its keys, none of them an identity key. *)
Fixpoint objectCleaner (obj : json) : json * option exn :=
  match obj with
  | JNull => (JNull, Some TypeError)
  | JObj props =>
      let fix each (ps : object) : object * option exn :=
        match ps with
        | [] => ([], None)
        | (key, v) :: rest =>
            if identity_key key then each rest
            else if Js.typeof_object (Some v) then
              match objectCleaner v with
              | (v', Some e) => ((key, v') :: rest, Some e)
              | (v', None) =>
                  let '(rest', c) := each rest in ((key, v') :: rest', c)
              end
            else let '(rest', c) := each rest in ((key, v) :: rest', c)
        end in
      let '(props', c) := each props in (JObj props', c)
  | JArr elems =>
      let fix each (xs : list json) : list json * option exn :=
        match xs with
        | [] => ([], None)
        | v :: rest =>
            if Js.typeof_object (Some v) then
              match objectCleaner v with
              | (v', Some e) => (v' :: rest, Some e)
              | (v', None) =>
                  let '(rest', c) := each rest in (v' :: rest', c)
              end
            else let '(rest', c) := each rest in (v :: rest', c)
        end in
      let '(elems', c) := each elems in (JArr elems', c)
  | _ => (obj, None)
  end.

(** The loop of [objectCleaner] over the keys of an object. *)
Fixpoint clean_props (ps : object) : object * option exn :=
  match ps with
  | [] => ([], None)
  | (key, v) :: rest =>
      if identity_key key then clean_props rest
      else if Js.typeof_object (Some v) then
        match objectCleaner v with
        | (v', Some e) => ((key, v') :: rest, Some e)
        | (v', None) =>
            let '(rest', c) := clean_props rest in ((key, v') :: rest', c)
        end
      else let '(rest', c) := clean_props rest in ((key, v) :: rest', c)
  end.

(** The loop of [objectCleaner] over the indices of an array. *)
Fixpoint clean_elems (xs : list json) : list json * option exn :=
  match xs with
  | [] => ([], None)
  | v :: rest =>
      if Js.typeof_object (Some v) then
        match objectCleaner v with
        | (v', Some e) => (v' :: rest, Some e)
        | (v', None) =>
            let '(rest', c) := clean_elems rest in (v' :: rest', c)
        end
      else let '(rest', c) := clean_elems rest in (v :: rest', c)
  end.

(** [objectCleaner(l)] on a record of the heap: the record is cleaned in
    place, also when the call throws half way. *)
Definition objectCleaner_at (l : loc) : M unit :=
  obj <- Heap.load l ;;
  let '(obj', c) := clean_props obj in
  Heap.store l obj' ;;;
  match c with
  | None => ret tt
  | Some e => throw e
  end.

(** [(entry) => entry.metadata?.source?.type === "CONTACT"] *)
Definition from_contact (entry : json) : completion bool :=
  match Js.member entry "metadata" with
  | Throw e => Throw e
  | Normal md =>
      Normal
        (match Js.opt_member (Js.opt_member md "source") "type" with
         | Some (JStr t) => String.eqb t "CONTACT"
         | _ => false
         end)
  end.

(** [Array.prototype.filter] with that callback: a new array, the
    argument is not touched. *)
Fixpoint filter_from_contact (xs : list json) : completion (list json) :=
  match xs with
  | [] => Normal []
  | x :: rest =>
      match from_contact x with
      | Throw e => Throw e
      | Normal keep =>
          match filter_from_contact rest with
          | Throw e => Throw e
          | Normal rest' => Normal (if keep then x :: rest' else rest')
          end
      end
  end.

(** [v.filter(...)] on a truthy [v]: only an array has [filter]. *)
Definition call_filter (v : value) : completion json :=
  match v with
  | Some (JArr xs) =>
      match filter_from_contact xs with
      | Normal xs' => Normal (JArr xs')
      | Throw e => Throw e
      end
  | _ => Throw TypeError
  end.

(** One membership entry for the group [group]. *)
Definition membership (group : string) : json :=
  JObj [("contactGroupMembership",
         JObj [("contactGroupResourceName",
                JStr (String.append "contactGroups/" group))])].

(** [if (contactData[key]) contactData[key] = contactData[key].filter(..)] *)
Definition keep_contact_entries (contactData : loc) (key : string) : M unit :=
  v <- Heap.get contactData key ;;
  if Js.truthy v then
    kept <- lift (call_filter v) ;;
    Heap.set contactData key kept
  else ret tt.

(** [processContact(contactData, options)]: works on the caller's
    object and returns that same reference. *)
Definition processContact (contactData : loc) (options : Options) : M loc :=
  let defaultMembership := [membership "myContacts"] in
  let defaultMembership :=
    match contactGroups options with
    | Some groups => (defaultMembership ++ List.map membership groups)%list
    | None => defaultMembership
    end in
  Heap.delete contactData "metadata" ;;;
  Heap.delete contactData "resourceName" ;;;
  Heap.delete contactData "etag" ;;;
  Heap.delete contactData "photos" ;;;
  Heap.delete contactData "coverPhotos" ;;;
  Heap.delete contactData "metadata" ;;;
  keep_contact_entries contactData "names" ;;;
  keep_contact_entries contactData "emailAddresses" ;;;
  Heap.set contactData "memberships" (JArr defaultMembership) ;;;
  objectCleaner_at contactData ;;;
  ret contactData.

(** [v] has an [id] or [resourceName] key, at some depth. *)
Fixpoint has_identity_key (v : json) : bool :=
  match v with
  | JObj props =>
      (fix any (ps : object) : bool :=
         match ps with
         | [] => false
         | (key, x) :: rest =>
             identity_key key || has_identity_key x || any rest
         end) props
  | JArr elems =>
      (fix any (xs : list json) : bool :=
         match xs with
         | [] => false
         | x :: rest => has_identity_key x || any rest
         end) elems
  | _ => false
  end.

(** No [null] in [v], at any depth. *)
Fixpoint null_free (v : json) : bool :=
  match v with
  | JNull => false
  | JObj props =>
      (fix all (ps : object) : bool :=
         match ps with
         | [] => true
         | (_, x) :: rest => null_free x && all rest
         end) props
  | JArr elems =>
      (fix all (xs : list json) : bool :=
         match xs with
         | [] => true
         | x :: rest => null_free x && all rest
         end) elems
  | _ => true
  end.

(** A field that the provenance filter can take: an array, or falsy. *)
Definition filterable (v : value) : bool :=
  match v with
  | Some (JArr _) => true
  | _ => negb (Js.truthy v)
  end.

(** The records on which [processContact] does not throw (see
    [processContact_total]). *)
Definition well_formed (obj : object) : bool :=
  null_free (JObj obj) && filterable (Js.get_prop "names" obj)
  && filterable (Js.get_prop "emailAddresses" obj).

(** The memberships that [processContact] writes for [options]. *)
Definition memberships_for (options : Options) : json :=
  JArr (membership "myContacts" ::
        match contactGroups options with
        | Some groups => List.map membership groups
        | None => []
        end).

(** The server-owned top-level fields that [processContact] deletes. *)
Definition read_only_fields : list string :=
  ["metadata"; "resourceName"; "etag"; "photos"; "coverPhotos"].

(** The record after the [delete] statements. *)
Definition stripped (obj : object) : object :=
  Js.delete_prop "metadata"
    (Js.delete_prop "coverPhotos"
       (Js.delete_prop "photos"
          (Js.delete_prop "etag"
             (Js.delete_prop "resourceName"
                (Js.delete_prop "metadata" obj))))).

(** The record after [if (obj[key]) obj[key] = obj[key].filter(...)]. *)
Definition kept (key : string) (obj : object) : completion object :=
  if Js.truthy (Js.get_prop key obj) then
    match call_filter (Js.get_prop key obj) with
    | Normal v => Normal (Js.set_prop key v obj)
    | Throw e => Throw e
    end
  else Normal obj.

(** What [processContact] leaves in a record that held [obj], and how
    the call completes; [processContact_run] below shows that the code
    computes exactly this. *)
Definition record_after (obj : object) (options : Options)
    : object * option exn :=
  match kept "names" (stripped obj) with
  | Throw e => (stripped obj, Some e)
  | Normal o1 =>
      match kept "emailAddresses" o1 with
      | Throw e => (o1, Some e)
      | Normal o2 =>
          clean_props (Js.set_prop "memberships" (memberships_for options) o2)
      end
  end.

End Sanitizer.

(* ===================================================================== *)
(** ** Paginated fetch ([bin/contacts.js], [bin/contact-groups.js]) *)
(* ===================================================================== *)

Module Fetcher.

(** The parameters of a list request that the code sets; [None] is a
    parameter left out, [Some JNull] is [pageToken: null]. *)
Record Request : Type := { pageSize : nat; pageToken : value }.

(** [res.data] of [people.connections.list]. *)
Record ConnectionsData : Type :=
  { connections : option (list json); nextPageToken : value }.

(** [res.data] of [contactGroups.list]. *)
Record GroupsData : Type :=
  { contactGroups : option (list json); groupsNextPageToken : value }.

(** [results.flat()]: an array element is spliced in, anything else
    (here: [undefined], a page without [connections]) stays as it is. *)
Definition flat (results : list (option (list json))) : list value :=
  List.concat
    (List.map (fun page => match page with
                           | Some items => List.map Some items
                           | None => [None]
                           end) results).

(** The [do ... while (nextPageToken)] loop of [listContacts], entered
    with [results] and [nextPageToken]; [fuel] bounds the number of
    requests, and [None] means the loop is still running.  A rejected
    request rejects the whole call. *)
Fixpoint listContacts_loop (fuel : nat)
    (list_connections : Request -> completion ConnectionsData)
    (results : list (option (list json))) (nextPageToken_ : value)
    : option (completion (list value)) :=
  match fuel with
  | O => None
  | S fuel' =>
      match list_connections {| pageSize := 1000;
                                pageToken := nextPageToken_ |} with
      | Throw e => Some (Throw e)
      | Normal data =>
          let results := (results ++ [connections data])%list in
          let nextPageToken_ := nextPageToken data in
          if Js.truthy nextPageToken_
          then listContacts_loop fuel' list_connections results
                 nextPageToken_
          else Some (Normal (flat results))
      end
  end.

(** [listContacts(authClient)]; the client is given by its
    [people.connections.list]. *)
Definition listContacts (fuel : nat)
    (list_connections : Request -> completion ConnectionsData)
    : option (completion (list value)) :=
  listContacts_loop fuel list_connections [] (Some JNull).

(** [listContactGroups(authClient)]: one request, its [res.data]. *)
Definition listContactGroups
    (list_groups : Request -> completion GroupsData)
    : completion GroupsData :=
  list_groups {| pageSize := 200; pageToken := None |}.

(** A remote account that holds [pages], in order: the first page
    answers the request that carries [first], each page names the
    token of the next, the last one carries no token. *)
Fixpoint serves (list_connections : Request -> completion ConnectionsData)
    (size : nat) (token : value) (pages : list (list json)) : Prop :=
  match pages with
  | [] => False
  | page :: more =>
      exists next,
        list_connections {| pageSize := size; pageToken := token |}
          = Normal {| connections := Some page; nextPageToken := next |}
        /\ match more with
           | [] => Js.truthy next = false
           | _ => Js.truthy next = true /\
                  serves list_connections size next more
           end
  end.

(** Equality of page tokens: absent, [null] or a string. *)
Definition token_eqb (a b : value) : bool :=
  match a, b with
  | None, None | Some JNull, Some JNull => true
  | Some (JStr x), Some (JStr y) => String.eqb x y
  | _, _ => false
  end.

(** A mock of [people.connections.list] over a table from page token to
    response. *)
Fixpoint connections_mock (table : list (value * ConnectionsData))
    (req : Request) : completion ConnectionsData :=
  match table with
  | [] => Throw (TransportError "invalid page token")
  | (token, data) :: rest =>
      if token_eqb token (pageToken req) then Normal data
      else connections_mock rest req
  end.

(** A mock of [contactGroups.list] over a table from page token to
    response. *)
Fixpoint groups_mock (table : list (value * GroupsData)) (req : Request)
    : completion GroupsData :=
  match table with
  | [] => Throw (TransportError "invalid page token")
  | (token, data) :: rest =>
      if token_eqb token (pageToken req) then Normal data
      else groups_mock rest req
  end.

End Fetcher.

(* ===================================================================== *)
(** ** Authorization ([bin/auth.js]) *)
(* ===================================================================== *)

Module Auth.

(** What [fs.readFileSync(path)] does: the text of the file, or a
    system error with its [code]. *)
Definition FileSystem : Type := string -> completion string.

(** [error.code]: only a system error carries one. *)
Definition code (e : exn) : option string :=
  match e with
  | SystemError c => Some c
  | _ => None
  end.

(** How a call of [authorize] ends. *)
Inductive outcome : Type :=
  | Client (credentials : json)
  | ViaGetAccessToken (accountEmail : string)
  | Rethrown (e : exn).

Section Authorize.

(** The directory of the token files, and [JSON.parse], which throws
    a [SyntaxError] on a text that is no JSON. *)
Variable TOKENS_DIR : string.
Variable JSON_parse : string -> option json.

Definition getTokenPath (accountEmail : string) : string :=
  String.append TOKENS_DIR
    (String.append "/" (String.append accountEmail ".json")).

(** The [try] block of [authorize]. *)
Definition read_token (fs : FileSystem) (tokenPath : string)
    : completion json :=
  match fs tokenPath with
  | Throw e => Throw e
  | Normal text =>
      match JSON_parse text with
      | None => Throw SyntaxError
      | Some token => Normal token
      end
  end.

Definition authorize (fs : FileSystem) (accountEmail : string) : outcome :=
  let tokenPath := getTokenPath accountEmail in
  match read_token fs tokenPath with
  | Normal token => Client token
  | Throw error =>
      if decide (code error = Some "ENOENT")
      then ViaGetAccessToken accountEmail
      else Rethrown error
  end.

End Authorize.

End Auth.

(* ===================================================================== *)
(** ** Batch writer ([batchCreateContacts] of [bin/contacts.js]) *)
(* ===================================================================== *)

Module Writer.

Local Open Scope nat_scope.

Definition BATCH_SIZE : nat := 25.

(** [{ contactPerson: record }], the record by reference. *)
Record Entry : Type := { contactPerson : loc }.

(** How the promise of one request settles. *)
Inductive settlement : Type :=
  | Fulfilled (data : json)
  | Rejected (error : exn).

(** The remote end answers a request [latency] milliseconds after it
    was made. *)
Record Reply : Type := { latency : N; settles : settlement }.

(** The remote end: the reply to the request number [k] (from 0), whose
    body holds the given persons. *)
Definition Remote : Type := nat -> list object -> Reply.

(** A request under way: when it settles, what was sent, and how. *)
Record Pending : Type :=
  { due : N; sent : list Entry; outcome : settlement }.

(** The variables of [batchCreateContacts] that the loop and the
    promise callbacks share, with the clock and the requests made. *)
Record State : Type :=
  { now : N;
    requests : list (list Entry);
    inflight : list Pending;
    results : list json;
    failed : list (list Entry);
    progress : nat }.

Definition start : State :=
  {| now := 0%N; requests := []; inflight := []; results := [];
     failed := []; progress := 0 |}.

(** The persons of a request body, as the heap holds them. *)
Definition body (h : heap) (batch : list Entry) : list object :=
  List.map (fun e => default [] (h !! contactPerson e)) batch.

(** [people.people.batchCreateContacts({...})]: the request leaves, the
    promise is not awaited. *)
Definition submit (remote : Remote) (h : heap) (batch : list Entry)
    (st : State) : State :=
  let reply := remote (length (requests st)) (body h batch) in
  {| now := now st;
     requests := (requests st ++ [batch])%list;
     inflight := (inflight st ++
                  [{| due := (now st + latency reply)%N; sent := batch;
                      outcome := settles reply |}])%list;
     results := results st;
     failed := failed st;
     progress := progress st |}.

(** The [.then] and [.catch] callbacks of one request. *)
Definition settle (st : State) (p : Pending) : State :=
  match outcome p with
  | Fulfilled data =>
      {| now := now st; requests := requests st; inflight := inflight st;
         results := (results st ++ [data])%list;
         failed := failed st; progress := progress st |}
  | Rejected _ =>
      {| now := now st; requests := requests st; inflight := inflight st;
         results := results st;
         failed := (failed st ++ [sent p])%list; progress := progress st |}
  end.

(** Callbacks run in the order in which the promises settle; of two
    that settle together the one of the earlier request runs first. *)
Fixpoint insert_by_due (p : Pending) (ps : list Pending) : list Pending :=
  match ps with
  | [] => [p]
  | q :: rest =>
      if (due p <=? due q)%N then p :: q :: rest
      else q :: insert_by_due p rest
  end.

Definition sort_by_due (ps : list Pending) : list Pending :=
  List.fold_right insert_by_due [] ps.

(** [await new Promise((resolve) => setTimeout(resolve, ms))]: the
    function is suspended for [ms] milliseconds; the promises that
    settle before the timer fires run their callbacks meanwhile. *)
Definition sleep (ms : N) (st : State) : State :=
  let wake := (now st + ms)%N in
  let ready :=
    sort_by_due (List.filter (fun p => (due p <? wake)%N) (inflight st)) in
  let waiting :=
    List.filter (fun p => negb (due p <? wake)%N) (inflight st) in
  let st := List.fold_left settle ready st in
  {| now := wake; requests := requests st; inflight := waiting;
     results := results st; failed := failed st;
     progress := progress st |}.

(** [progress.increment(n)] *)
Definition increment (n : nat) (st : State) : State :=
  {| now := now st; requests := requests st; inflight := inflight st;
     results := results st; failed := failed st;
     progress := progress st + n |}.

(** The values [i] takes in
    [for (let i = 0; i < n; i += BATCH_SIZE)]. *)
Definition starts (n : nat) : list nat :=
  List.map (fun k => k * BATCH_SIZE)
    (List.seq 0 ((n + (BATCH_SIZE - 1)) / BATCH_SIZE)).

(** One turn of the loop. *)
Definition turn (remote : Remote) (h : heap)
    (processedContacts : list Entry) (st : State) (i : nat) : State :=
  let batch := Js.slice i (i + BATCH_SIZE) processedContacts in
  let st := submit remote h batch st in
  let st := sleep 5000%N st in
  increment (length batch) st.

(** [contacts.map((contact) => ({ contactPerson:
    processContact(contact, options) }))] *)
Fixpoint process_all (contacts : list loc) (options : Sanitizer.Options)
    : M (list Entry) :=
  match contacts with
  | [] => ret []
  | contact :: rest =>
      person <- Sanitizer.processContact contact options ;;
      entries <- process_all rest options ;;
      ret ({| contactPerson := person |} :: entries)
  end.

(** [batchCreateContacts(authClient, contacts, options)]; the client is
    given by the remote end it talks to.  The state at the [return]
    holds the [results] and [failed] that the caller gets. *)
Definition batchCreateContacts (remote : Remote) (contacts : list loc)
    (options : Sanitizer.Options) : M State :=
  processedContacts <- process_all contacts options ;;
  fun h =>
    (Normal (List.fold_left (turn remote h processedContacts)
               (starts (length processedContacts)) start), h).

End Writer.

(* ===================================================================== *)
(** ** The [contacts import] command ([bin/index.js]) *)
(* ===================================================================== *)

Module Cli.

(** The options object that the action of [contacts import] receives.
    [--limit] is declared as ['-l, --limit'], without a [<value>]
    placeholder, so it is a boolean flag: [true] when given, otherwise
    [undefined]. *)
Record ImportOptions : Type :=
  { source : option string;
    destination : option string;
    file : option string;
    limit : option bool;
    contactGroups : option string }.

Definition no_options : ImportOptions :=
  {| source := None; destination := None; file := None; limit := None;
     contactGroups := None |}.

(** The part of the option parser that the declarations of
    [contacts import] use: an option declared with a [<value>] takes the
    next word, [--limit] takes none, and a word that belongs to no
    option is an operand, which the action does not look at.  Options
    are taken as separate words; the forms [--file=value] and joined
    short flags ([-lf value]) are not covered and count as operands
    here. *)
Fixpoint parse (argv : list string) (o : ImportOptions) : ImportOptions :=
  match argv with
  | [] => o
  | word :: rest =>
      if String.eqb word "-l" || String.eqb word "--limit" then
        parse rest
          {| source := source o; destination := destination o;
             file := file o; limit := Some true;
             contactGroups := contactGroups o |}
      else
        match rest with
        | v :: rest' =>
            if String.eqb word "-s" || String.eqb word "--source" then
              parse rest'
                {| source := Some v; destination := destination o;
                   file := file o; limit := limit o;
                   contactGroups := contactGroups o |}
            else if String.eqb word "-d" || String.eqb word "--destination"
            then
              parse rest'
                {| source := source o; destination := Some v;
                   file := file o; limit := limit o;
                   contactGroups := contactGroups o |}
            else if String.eqb word "-f" || String.eqb word "--file" then
              parse rest'
                {| source := source o; destination := destination o;
                   file := Some v; limit := limit o;
                   contactGroups := contactGroups o |}
            else if String.eqb word "--contact-groups" then
              parse rest'
                {| source := source o; destination := destination o;
                   file := file o; limit := limit o;
                   contactGroups := Some v |}
            else parse rest o
        | [] => o
        end
  end.

(** ToBoolean and ToIntegerOrInfinity of [options.limit]. *)
Definition limit_given (l : option bool) : bool := default false l.
Definition limit_to_integer (l : option bool) : nat :=
  match l with
  | Some true => 1
  | _ => 0
  end.

(** [s.split(',')] *)
Fixpoint split_from (s : string) (word : string) : list string :=
  match s with
  | EmptyString => [word]
  | String c rest =>
      if Ascii.eqb c (Ascii.ascii_of_nat 44) then word :: split_from rest ""
      else split_from rest (String.append word (String c ""))
  end.
Definition split_comma (s : string) : list string := split_from s "".

(** [if (options.limit) contacts = contacts.slice(0, options.limit)] *)
Definition limited (options : ImportOptions) (contacts : list loc)
    : list loc :=
  if limit_given (limit options)
  then Js.slice 0 (limit_to_integer (limit options)) contacts
  else contacts.

(** The action of [contacts import]; [parsed] is what
    [JSON.parse(fs.readFileSync(file))] gave, [None] when the file does
    not exist.  [None] as result: the process exits with code 1. *)
Definition import_action (remote : Writer.Remote)
    (options : ImportOptions) (parsed : option (list loc))
    : option (M Writer.State) :=
  let contactGroups_ := option_map split_comma (contactGroups options) in
  match destination options with
  | None => None
  | Some _ =>
      match file options with
      | Some _ =>
          match parsed with
          | None => None
          | Some contacts =>
              let contacts := limited options contacts in
              Some (Writer.batchCreateContacts remote contacts
                      {| Sanitizer.contactGroups := contactGroups_ |})
          end
      | None => None
      end
  end.

End Cli.


(* ===================================================================== *)
(** ** The provenance test as a predicate *)
(* ===================================================================== *)

Module Provenance.

(** The entries that the callback of [filter] keeps. *)
Definition passes (entry : json) : bool :=
  match Sanitizer.from_contact entry with
  | Normal true => true
  | _ => false
  end.

End Provenance.

(* ===================================================================== *)
(** ** What a sanitized record is, stated without the sanitizer *)
(* ===================================================================== *)

Module Expected.

(** [key] names a property of [v] or of a value nested in [v], at any
    depth. *)
Fixpoint mentions_key (key : string) (v : json) : bool :=
  match v with
  | JObj props =>
      (fix any (ps : object) : bool :=
         match ps with
         | [] => false
         | (k, x) :: rest =>
             String.eqb k key || mentions_key key x || any rest
         end) props
  | JArr elems =>
      (fix any (xs : list json) : bool :=
         match xs with
         | [] => false
         | x :: rest => mentions_key key x || any rest
         end) elems
  | _ => false
  end.

(** [v] with every property named in [keys] left out, at every depth. *)
Fixpoint without_keys (keys : list string) (v : json) : json :=
  match v with
  | JObj props =>
      JObj ((fix go (ps : object) : object :=
               match ps with
               | [] => []
               | (k, x) :: rest =>
                   if existsb (String.eqb k) keys then go rest
                   else (k, without_keys keys x) :: go rest
               end) props)
  | JArr elems =>
      JArr ((fix go (xs : list json) : list json :=
               match xs with
               | [] => []
               | x :: rest => without_keys keys x :: go rest
               end) elems)
  | _ => v
  end.

(** The value of the property [key] of an object, if it has one. *)
Definition lookup (key : string) (props : object) : option json :=
  option_map snd (List.find (fun kv => String.eqb (fst kv) key) props).

(** An entry with the provenance tag [CONTACT]: an object whose
    [metadata] is an object whose [source] is an object whose [type] is
    the string [CONTACT]. *)
Definition contact_sourced (entry : json) : bool :=
  match entry with
  | JObj props =>
      match lookup "metadata" props with
      | Some (JObj metadata) =>
          match lookup "source" metadata with
          | Some (JObj source) =>
              match lookup "type" source with
              | Some (JStr type) => String.eqb type "CONTACT"
              | _ => false
              end
          | _ => false
          end
      | _ => false
      end
  | _ => false
  end.

(** The membership entry for the contact group with the resource name
    [name]. *)
Definition membership_of (name : string) : json :=
  JObj [("contactGroupMembership",
         JObj [("contactGroupResourceName", JStr name)])].

(** The memberships of a record imported into [groups]: the default
    group [myContacts], then the groups in their order. *)
Definition memberships (groups : list string) : json :=
  JArr (membership_of "contactGroups/myContacts" ::
        List.map (fun group => membership_of (String.append "contactGroups/" group))
          groups).

(** The read-only fields of a person. *)
Definition read_only : list string :=
  ["metadata"; "resourceName"; "etag"; "photos"; "coverPhotos"].

(** The fields that the sanitizer deletes, filters or replaces. *)
Definition handled : list string :=
  ["metadata"; "resourceName"; "etag"; "photos"; "coverPhotos";
   "names"; "emailAddresses"; "memberships"].

(** A person as a create request may carry it, for an import into
    [groups]: none of the read-only fields, no [id] or [resourceName] key
    at any depth, and the memberships of [groups]. *)
Definition submittable (groups : list string) (person : object) : Prop :=
  (forall key, In key read_only -> ~ In key (List.map fst person)) /\
  mentions_key "id" (JObj person) = false /\
  mentions_key "resourceName" (JObj person) = false /\
  lookup "memberships" person = Some (memberships groups).

(** The group names of a [--contact-groups] argument: the argument is
    the names joined by commas. *)
Fixpoint join_comma (groups : list string) : string :=
  match groups with
  | [] => ""
  | [group] => group
  | group :: rest => String.append group (String.append "," (join_comma rest))
  end.

(** The one-character string [c] does not occur in [s]. *)
Fixpoint lacks (c : string) (s : string) : bool :=
  match s with
  | EmptyString => true
  | String a rest => negb (String.eqb (String a EmptyString) c) && lacks c rest
  end.

(** [groups] are the groups that the option value [arg] names; without
    the option there are none. *)
Definition names_groups (arg : option string) (groups : list string) : Prop :=
  match arg with
  | None => groups = []
  | Some s =>
      s = join_comma groups /\ groups <> [] /\
      Forall (fun group => lacks "," group = true) groups
  end.

End Expected.

(* ===================================================================== *)
(** ** Book-keeping of the batch writer *)
(* ===================================================================== *)

Module Accounting.

Import Writer.


(** The clock shows 5 seconds per request made, and the progress bar the
    number of entries sent. *)
Definition timed (st : State) : Prop :=
  now st = (5000 * N.of_nat (length (requests st)))%N /\
  progress st = length (List.concat (requests st)).

End Accounting.

(* ===================================================================== *)
(** ** Remote ends of [listContacts], page by page *)
(* ===================================================================== *)

Module Paging.

Import Fetcher.

(** The remote end answers the request with [token] by the first of
    [pages] ([None]: a response without [connections]) and a token for
    the next, and so on; after the last page it either sends no token
    ([failure = None]) or lets the next request fail with [failure]. *)
Fixpoint answers (list_connections : Request -> completion ConnectionsData)
    (token : value) (pages : list (option (list json)))
    (failure : option exn) : Prop :=
  match pages with
  | [] =>
      match failure with
      | Some e =>
          list_connections {| pageSize := 1000; pageToken := token |}
          = Throw e
      | None => False
      end
  | page :: more =>
      exists next,
        list_connections {| pageSize := 1000; pageToken := token |}
          = Normal {| connections := page; nextPageToken := next |}
        /\ match more, failure with
           | [], None => Js.truthy next = false
           | _, _ => Js.truthy next = true /\
                     answers list_connections next more failure
           end
  end.

End Paging.

(* ===================================================================== *)
(** ** Interactive authorization ([getAccessToken] of [bin/auth.js]) *)
(* ===================================================================== *)

Module AuthFlow.

Section GetAccessToken.

(** The file system ([node:fs]) as the code uses it: a state [Disk],
    [existsSync], [mkdirSync(dir, { recursive: true })], [writeFileSync]
    and [readFileSync]; the token endpoint as [getToken]; [JSON.stringify]
    and [JSON.parse]. *)
Variable Disk : Type.
Variable existsSync : Disk -> string -> bool.
Variable mkdirSync : string -> Disk -> completion unit * Disk.
Variable writeFileSync : string -> string -> Disk -> completion unit * Disk.
Variable readFileSync : Disk -> Auth.FileSystem.
Variable getToken : string -> completion json.
Variable JSON_stringify : json -> string.
Variable JSON_parse : string -> option json.
Variable TOKENS_DIR : string.

(** [getAccessToken(accountEmail)]; [code] is what the user types at the
    prompt.  The result is the credentials of the client returned.  When
    [getToken] reports an error the promise is rejected (the [resolve]
    that follows the [reject] has no effect). *)
Definition getAccessToken (accountEmail code : string) (d : Disk)
    : completion json * Disk :=
  let '(made, d) :=
    if existsSync d TOKENS_DIR then (Normal tt, d)
    else mkdirSync TOKENS_DIR d in
  match made with
  | Throw e => (Throw e, d)
  | Normal _ =>
      let tokenPath := Auth.getTokenPath TOKENS_DIR accountEmail in
      match getToken code with
      | Throw err => (Throw err, d)
      | Normal token =>
          let '(written, d) :=
            writeFileSync tokenPath (JSON_stringify token) d in
          match written with
          | Throw e => (Throw e, d)
          | Normal _ => (Normal token, d)
          end
      end
  end.

(** [authorize(accountEmail)] with the call of [getAccessToken] that it
    ends in when the token file is absent. *)
Definition authorize_on (accountEmail code : string) (d : Disk)
    : completion json * Disk :=
  match Auth.authorize TOKENS_DIR JSON_parse (readFileSync d) accountEmail with
  | Auth.Client token => (Normal token, d)
  | Auth.ViaGetAccessToken a => getAccessToken a code d
  | Auth.Rethrown e => (Throw e, d)
  end.

End GetAccessToken.

End AuthFlow.

(* ===================================================================== *)
(** ** The action of [contacts import], in its two versions *)
(* ===================================================================== *)

Module ImportCmd.

(** How the action ends, up to the call of [batchCreateContacts]: the
    process exits, the promise of the action rejects, or the writer has
    run (the action then writes [failed] to a file). *)
Inductive result : Type :=
  | Exit (code : nat) (message : string)
  | Rejects (e : exn)
  | Imported (st : Writer.State).

(** Truthiness of an option value that is a string or [undefined]. *)
Definition given (o : option string) : bool :=
  match o with
  | Some s => negb (String.eqb s "")
  | None => false
  end.

Section Action.

(** [await auth.authorize(destination)]: the client, given by the remote
    end it talks to, or the error it rejects with. *)
Variable authorize : string -> completion Writer.Remote.

(** The branch [if (file)] of both versions, from the [existsSync] test
    on; [parsed] is what reading and parsing the file gives ([None]: no
    such file), [groups] what the version passes as
    [options.contactGroups] once the client is there. *)
Definition import_file (options : Cli.ImportOptions)
    (parsed : option (completion (list loc)))
    (groups : completion (option (list string))) (h : heap)
    : result * heap :=
  match parsed with
  | None => (Exit 1 "File not found", h)
  | Some (Throw e) => (Rejects e, h)
  | Some (Normal contacts) =>
      let contacts := Cli.limited options contacts in
      match authorize (default "" (Cli.destination options)) with
      | Throw e => (Rejects e, h)
      | Normal destinationClient =>
          match groups with
          | Throw e => (Rejects e, h)
          | Normal contactGroups =>
              match Writer.batchCreateContacts destinationClient contacts
                      {| Sanitizer.contactGroups := contactGroups |} h with
              | (Normal st, h') => (Imported st, h')
              | (Throw e, h') => (Rejects e, h')
              end
          end
      end
  end.

(** The checks around it, the same in both versions. *)
Definition import_checked (options : Cli.ImportOptions)
    (parsed : option (completion (list loc)))
    (groups : completion (option (list string))) (h : heap)
    : result * heap :=
  if negb (given (Cli.destination options)) then
    (Exit 1 "No destination account provided", h)
  else if given (Cli.file options) then import_file options parsed groups h
  else if given (Cli.source options) then (Exit 1 "Not implemented yet", h)
  else (Exit 1 "No source account or file provided", h).

(** The later version:
    [const contactGroups = options.contactGroups?.split(',') ?? undefined]. *)
Definition import_split_first (options : Cli.ImportOptions)
    (parsed : option (completion (list loc))) (h : heap) : result * heap :=
  import_checked options parsed
    (Normal (option_map Cli.split_comma (Cli.contactGroups options))) h.

(** [bin/index.js]: [contactGroups: contactGroups.split(',')] in the call
    of [batchCreateContacts], which throws when the option was not
    given. *)
Definition import_split_late (options : Cli.ImportOptions)
    (parsed : option (completion (list loc))) (h : heap) : result * heap :=
  import_checked options parsed
    (match Cli.contactGroups options with
     | Some s => Normal (Some (Cli.split_comma s))
     | None => Throw TypeError
     end) h.

End Action.

End ImportCmd.

(* ===================================================================== *)
(** ** Sample data *)
(* ===================================================================== *)

Module Samples.

Definition source_tag (type id : string) : json :=
  JObj [("metadata",
         JObj [("primary", JBool true);
               ("source", JObj [("type", JStr type); ("id", JStr id)])])].

Definition entry (type id field text : string) : json :=
  match source_tag type id with
  | JObj props => JObj (props ++ [(field, JStr text)])%list
  | other => other
  end.

(** A person as [people.connections.list] returns it. *)
Definition ann : object :=
  [("resourceName", JStr "people/c1001");
   ("etag", JStr "%EgUBAj03LhoEAQIFByIMR2");
   ("metadata",
    JObj [("sources", JArr [JObj [("type", JStr "CONTACT");
                                  ("id", JStr "3e9")]]);
          ("objectType", JStr "PERSON")]);
   ("names", JArr [entry "CONTACT" "3e9" "displayName" "Ann Lee";
                   entry "PROFILE" "117" "displayName" "Ann L."]);
   ("photos", JArr [JObj [("url", JStr "https://lh3/ann")]]);
   ("emailAddresses", JArr [entry "CONTACT" "3e9" "value" "ann@example.org";
                            entry "DOMAIN_PROFILE" "117" "value" "al@corp"]);
   ("memberships",
    JArr [JObj [("contactGroupMembership",
                 JObj [("contactGroupId", JStr "5f2");
                       ("contactGroupResourceName",
                        JStr "contactGroups/5f2")])]])].

(** A record of a JSON file with a [null] field. *)
Definition with_null : object :=
  [("names", JArr [entry "CONTACT" "3e9" "displayName" "Bob"]);
   ("biographies", JNull)].

(** [ann] as [processContact] leaves it when no groups are asked for. *)
Definition ann_sanitized : object :=
  [("names",
    JArr [JObj [("metadata",
                 JObj [("primary", JBool true);
                       ("source", JObj [("type", JStr "CONTACT")])]);
                ("displayName", JStr "Ann Lee")]]);
   ("emailAddresses",
    JArr [JObj [("metadata",
                 JObj [("primary", JBool true);
                       ("source", JObj [("type", JStr "CONTACT")])]);
                ("value", JStr "ann@example.org")]]);
   ("memberships", JArr [Sanitizer.membership "myContacts"])].

Definition groups_ab : Sanitizer.Options :=
  {| Sanitizer.contactGroups := Some ["a"; "b"] |}.
Definition no_groups : Sanitizer.Options :=
  {| Sanitizer.contactGroups := None |}.

(** A heap with the two records. *)
Definition two_records : heap := {[ 0 := ann; 1 := with_null ]}.

(** Contact groups of an account, and a remote end that serves 201 of
    them in pages of at most 200. *)
Definition group (i : nat) : json :=
  JObj [("groupType", JStr "USER_CONTACT_GROUP");
        ("memberCount", JNum (Z.of_nat i))].

Definition two_pages : list (value * Fetcher.GroupsData) :=
  [(None,
    {| Fetcher.contactGroups := Some (List.map group (List.seq 0 200));
       Fetcher.groupsNextPageToken := Some (JStr "page-2") |});
   (Some (JStr "page-2"),
    {| Fetcher.contactGroups := Some (List.map group (List.seq 200 1));
       Fetcher.groupsNextPageToken := None |})].

(** Connections in three pages of 2, 2 and 1, and an account without
    connections, whose response has no [connections] field. *)
Definition connection (i : nat) : json :=
  JObj [("resourceName", JStr "people/c"); ("row", JNum (Z.of_nat i))].

Definition three_pages : list (value * Fetcher.ConnectionsData) :=
  [(Some JNull,
    {| Fetcher.connections := Some [connection 0; connection 1];
       Fetcher.nextPageToken := Some (JStr "t1") |});
   (Some (JStr "t1"),
    {| Fetcher.connections := Some [connection 2; connection 3];
       Fetcher.nextPageToken := Some (JStr "t2") |});
   (Some (JStr "t2"),
    {| Fetcher.connections := Some [connection 4];
       Fetcher.nextPageToken := None |})].

Definition empty_account : list (value * Fetcher.ConnectionsData) :=
  [(Some JNull,
    {| Fetcher.connections := None; Fetcher.nextPageToken := None |})].

(** All the groups that a table of pages holds, in order. *)
Definition all_groups (table : list (value * Fetcher.GroupsData))
    : list json :=
  List.concat
    (List.map (fun page => default [] (Fetcher.contactGroups (snd page)))
       table).

(** Records of an import file, already in the form the sanitizer
    leaves. *)
Definition person (i : nat) : object :=
  [("names", JArr [entry "CONTACT" "3e9" "displayName" "Row"]);
   ("userDefined",
    JArr [JObj [("key", JStr "row"); ("value", JNum (Z.of_nat i))]])].

Definition people (n : nat) : heap :=
  list_to_map (List.map (fun i => (i, person i)) (List.seq 0 n)).

(** The answer of the remote end to a batch it accepts. *)
Definition created (persons : list object) : json :=
  JObj [("createdPeople",
         JArr (List.map
                 (fun p => JObj [("httpStatusCode", JNum 200);
                                 ("person", JObj p)]) persons))].

(** Every request is answered after 400 ms; the second is refused. *)
Definition second_fails : Writer.Remote :=
  fun k persons =>
    match k with
    | 1 => {| Writer.latency := 400;
              Writer.settles :=
                Writer.Rejected (TransportError "Quota exceeded") |}
    | _ => {| Writer.latency := 400;
              Writer.settles := Writer.Fulfilled (created persons) |}
    end.

(** As [second_fails], but the third answer takes 6 seconds. *)
Definition second_fails_third_slow : Writer.Remote :=
  fun k persons =>
    match k with
    | 2 => {| Writer.latency := 6000;
              Writer.settles := Writer.Fulfilled (created persons) |}
    | _ => second_fails k persons
    end.

(** Every request is accepted, after 6 seconds. *)
Definition slow : Writer.Remote :=
  fun k persons =>
    {| Writer.latency := 6000;
       Writer.settles := Writer.Fulfilled (created persons) |}.

(** Every request is refused, after 6 seconds. *)
Definition slow_refusal : Writer.Remote :=
  fun k persons =>
    {| Writer.latency := 6000;
       Writer.settles := Writer.Rejected (TransportError "Quota exceeded") |}.

(** What the sanitizer leaves of [person i], without groups. *)
Definition sanitized (i : nat) : object :=
  fst (Sanitizer.record_after (person i) no_groups).

(** A command line of [contacts import]. *)
Definition import_two : list string :=
  ["-d"; "me@example.org"; "-f"; "contacts.json"; "--limit"; "2"].

(** A token directory, a parser that accepts one text, and file systems
    around the token file of [me@example.org]. *)
Definition tokens_dir : string := "/app/.tokens".
Definition token : json := JObj [].
Definition parse_token (text : string) : option json :=
  if String.eqb text "{}" then Some token else None.
Definition no_token_file : Auth.FileSystem :=
  fun path => Throw (SystemError "ENOENT").
Definition corrupt_token_file : Auth.FileSystem :=
  fun path => Normal "{ refresh_token: ".
Definition unreadable_token_file : Auth.FileSystem :=
  fun path => Throw (SystemError "EACCES").

(** The first two of the three pages; the request for the third fails. *)
Definition two_pages_then_failure : list (value * Fetcher.ConnectionsData) :=
  firstn 2 three_pages.

(** A disk with directories and files on which every operation succeeds,
    a token endpoint that accepts one code, and a serializer for the one
    token. *)
Definition disk : Type := gset string * gmap string string.
Definition empty_disk : disk := (∅, ∅).
Definition disk_exists (d : disk) (path : string) : bool :=
  bool_decide (path ∈ d.1).
Definition disk_mkdir (dir : string) (d : disk) : completion unit * disk :=
  (Normal tt, ({[ dir ]} ∪ d.1, d.2)).
Definition disk_write (path text : string) (d : disk)
    : completion unit * disk :=
  (Normal tt, (d.1, <[ path := text ]> d.2)).
Definition disk_read (d : disk) : Auth.FileSystem :=
  fun path =>
    match d.2 !! path with
    | Some text => Normal text
    | None => Throw (SystemError "ENOENT")
    end.
Definition exchange (code : string) : completion json :=
  if String.eqb code "4/0AX4" then Normal token
  else Throw (TransportError "invalid_grant").
Definition stringify_token (t : json) : string := "{}".

(** An import of a file of two records into the group [friends], and a
    destination whose remote end is [slow]. *)
Definition import_friends : Cli.ImportOptions :=
  {| Cli.source := None; Cli.destination := Some "me@example.org";
     Cli.file := Some "contacts.json"; Cli.limit := None;
     Cli.contactGroups := Some "friends" |}.
Definition import_two_groups : Cli.ImportOptions :=
  {| Cli.source := None; Cli.destination := Some "me@example.org";
     Cli.file := Some "contacts.json"; Cli.limit := None;
     Cli.contactGroups := Some "friends,family" |}.
Definition import_plain : Cli.ImportOptions :=
  {| Cli.source := None; Cli.destination := Some "me@example.org";
     Cli.file := Some "contacts.json"; Cli.limit := None;
     Cli.contactGroups := None |}.
Definition two_to_import : heap := {[ 0 := ann; 1 := person 1 ]}.
Definition authorized_slow (account : string) : completion Writer.Remote :=
  Normal slow.

(** [ann] with a [null] field, on which [processContact] throws. *)
Definition ann_with_null : object := (ann ++ [("biographies", JNull)])%list.

End Samples.

(* ===================================================================== *)
(** * Properties *)
(* ===================================================================== *)

(** ** Own properties of an object *)

Section Props.

Implicit Types (obj : object) (key k : string) (v : json).

Lemma eqb_false_ne (a b : string) : a ≠ b -> String.eqb a b = false.
Proof. intros H. apply String.eqb_neq. exact H. Qed.

Lemma get_delete_same key obj : Js.get_prop key (Js.delete_prop key obj) = None.
Proof.
  induction obj as [|[k x] rest IH]; [reflexivity|].
  unfold Js.delete_prop in *. simpl.
  destruct (String.eqb k key) eqn:E; simpl; [exact IH|].
  rewrite E. exact IH.
Qed.

Lemma get_delete_none key k obj :
  Js.get_prop key obj = None -> Js.get_prop key (Js.delete_prop k obj) = None.
Proof.
  induction obj as [|[k' x] rest IH]; [reflexivity|].
  unfold Js.delete_prop in *. simpl.
  destruct (String.eqb k' key) eqn:E; [discriminate|].
  intros H. destruct (String.eqb k' k); simpl; [auto|].
  rewrite E. auto.
Qed.

Lemma get_delete_other key k obj :
  k ≠ key -> Js.get_prop key (Js.delete_prop k obj) = Js.get_prop key obj.
Proof.
  intros Hne. induction obj as [|[k' x] rest IH]; [reflexivity|].
  unfold Js.delete_prop in *. simpl.
  destruct (String.eqb k' k) eqn:E; simpl.
  - apply String.eqb_eq in E. subst k'.
    rewrite (eqb_false_ne _ _ Hne). exact IH.
  - destruct (String.eqb k' key); [reflexivity | exact IH].
Qed.

Lemma delete_absent key obj :
  Js.get_prop key obj = None -> Js.delete_prop key obj = obj.
Proof.
  induction obj as [|[k x] rest IH]; [reflexivity|].
  unfold Js.delete_prop in *. simpl.
  destruct (String.eqb k key) eqn:E; [discriminate|].
  intros H. simpl. f_equal. auto.
Qed.

Lemma get_set_same key v obj : Js.get_prop key (Js.set_prop key v obj) = Some v.
Proof.
  induction obj as [|[k x] rest IH]; simpl.
  - rewrite String.eqb_refl. reflexivity.
  - destruct (String.eqb k key) eqn:E; simpl; rewrite E; auto.
Qed.

Lemma get_set_other key k v obj :
  k ≠ key -> Js.get_prop key (Js.set_prop k v obj) = Js.get_prop key obj.
Proof.
  intros Hne. induction obj as [|[k' x] rest IH]; simpl.
  - rewrite (eqb_false_ne _ _ Hne). reflexivity.
  - destruct (String.eqb k' k) eqn:E; simpl.
    + apply String.eqb_eq in E. subst k'.
      rewrite (eqb_false_ne _ _ Hne). reflexivity.
    + destruct (String.eqb k' key); [reflexivity | exact IH].
Qed.

Lemma set_same_value key v obj :
  Js.get_prop key obj = Some v -> Js.set_prop key v obj = obj.
Proof.
  induction obj as [|[k x] rest IH]; simpl; [discriminate|].
  destruct (String.eqb k key) eqn:E.
  - intros [= ->]. reflexivity.
  - intros H. f_equal. auto.
Qed.

End Props.

(** ** [objectCleaner] *)

Section Cleaner.

Import Sanitizer.

Lemma objectCleaner_obj ps :
  objectCleaner (JObj ps) = let '(ps', c) := clean_props ps in (JObj ps', c).
Proof. reflexivity. Qed.

Lemma objectCleaner_arr xs :
  objectCleaner (JArr xs) = let '(xs', c) := clean_elems xs in (JArr xs', c).
Proof. reflexivity. Qed.

(** On a value that is no object the call is not made, and would
    change nothing. *)
Lemma objectCleaner_primitive v :
  Js.typeof_object (Some v) = false -> objectCleaner v = (v, None).
Proof. destruct v; simpl; intros H; try discriminate; reflexivity. Qed.

Lemma clean_props_cons key v rest :
  clean_props ((key, v) :: rest) =
    if identity_key key then clean_props rest
    else match objectCleaner v with
         | (v', Some e) => ((key, v') :: rest, Some e)
         | (v', None) =>
             let '(rest', c) := clean_props rest in ((key, v') :: rest', c)
         end.
Proof.
  cbn [clean_props]. destruct (identity_key key); [reflexivity|].
  destruct (Js.typeof_object (Some v)) eqn:E; [reflexivity|].
  rewrite (objectCleaner_primitive v E). reflexivity.
Qed.

Lemma clean_elems_cons v rest :
  clean_elems (v :: rest) =
    match objectCleaner v with
    | (v', Some e) => (v' :: rest, Some e)
    | (v', None) =>
        let '(rest', c) := clean_elems rest in (v' :: rest', c)
    end.
Proof.
  cbn [clean_elems].
  destruct (Js.typeof_object (Some v)) eqn:E; [reflexivity|].
  rewrite (objectCleaner_primitive v E). reflexivity.
Qed.

(** Case analysis on the cleaning of one more property. *)
Lemma clean_props_cons_ok key v rest ps' :
  clean_props ((key, v) :: rest) = (ps', None) ->
  (identity_key key = true /\ clean_props rest = (ps', None)) \/
  (identity_key key = false /\
   exists v' rest', objectCleaner v = (v', None) /\
                    clean_props rest = (rest', None) /\
                    ps' = (key, v') :: rest').
Proof.
  rewrite clean_props_cons. destruct (identity_key key); [auto|].
  destruct (objectCleaner v) as [v' [e|]]; [discriminate|].
  destruct (clean_props rest) as [rest' c]. intros [= <- ->].
  right. split; [reflexivity|]. eauto.
Qed.

Lemma clean_elems_cons_ok v rest xs' :
  clean_elems (v :: rest) = (xs', None) ->
  exists v' rest', objectCleaner v = (v', None) /\
                   clean_elems rest = (rest', None) /\
                   xs' = v' :: rest'.
Proof.
  rewrite clean_elems_cons.
  destruct (objectCleaner v) as [v' [e|]]; [discriminate|].
  destruct (clean_elems rest) as [rest' c]. intros [= <- ->]. eauto.
Qed.

(** A cleaning that completes leaves no identity key, at any depth. *)
Lemma objectCleaner_no_identity_key v :
  forall v', objectCleaner v = (v', None) -> has_identity_key v' = false.
Proof.
  induction v using json_rect' with
    (Q := fun xs => forall xs', clean_elems xs = (xs', None) ->
                                has_identity_key (JArr xs') = false)
    (R := fun ps => forall ps', clean_props ps = (ps', None) ->
                                has_identity_key (JObj ps') = false).
  - discriminate.
  - intros v' [= <-]. reflexivity.
  - intros v' [= <-]. reflexivity.
  - intros v' [= <-]. reflexivity.
  - intros v'. rewrite objectCleaner_arr.
    destruct (clean_elems l) as [xs' c] eqn:E. intros [= <- ->]. auto.
  - intros v'. rewrite objectCleaner_obj.
    destruct (clean_props ps) as [ps' c] eqn:E. intros [= <- ->]. auto.
  - intros xs' [= <-]. reflexivity.
  - intros xs' H. apply clean_elems_cons_ok in H.
    destruct H as (v' & rest' & Hv & Hr & ->).
    specialize (IHv _ Hv). specialize (IHv0 _ Hr).
    simpl in *. rewrite IHv. exact IHv0.
  - intros ps' [= <-]. reflexivity.
  - intros ps' H. apply clean_props_cons_ok in H.
    destruct H as [[Hk Hr] | (Hk & v' & rest' & Hv & Hr & ->)]; [auto|].
    specialize (IHv _ Hv). specialize (IHv0 _ Hr).
    simpl in *. rewrite Hk, IHv. exact IHv0.
Qed.

(** Cleaning a cleaned value changes nothing. *)
Lemma objectCleaner_idempotent v :
  forall v', objectCleaner v = (v', None) -> objectCleaner v' = (v', None).
Proof.
  induction v using json_rect' with
    (Q := fun xs => forall xs', clean_elems xs = (xs', None) ->
                                clean_elems xs' = (xs', None))
    (R := fun ps => forall ps', clean_props ps = (ps', None) ->
                                clean_props ps' = (ps', None)).
  - discriminate.
  - intros v' [= <-]. reflexivity.
  - intros v' [= <-]. reflexivity.
  - intros v' [= <-]. reflexivity.
  - intros v'. rewrite objectCleaner_arr.
    destruct (clean_elems l) as [xs' c] eqn:E. intros [= <- ->].
    rewrite objectCleaner_arr, (IHv _ eq_refl). reflexivity.
  - intros v'. rewrite objectCleaner_obj.
    destruct (clean_props ps) as [ps' c] eqn:E. intros [= <- ->].
    rewrite objectCleaner_obj, (IHv _ eq_refl). reflexivity.
  - intros xs' [= <-]. reflexivity.
  - intros xs' H. apply clean_elems_cons_ok in H.
    destruct H as (v' & rest' & Hv & Hr & ->).
    rewrite clean_elems_cons, (IHv _ Hv), (IHv0 _ Hr). reflexivity.
  - intros ps' [= <-]. reflexivity.
  - intros ps' H. apply clean_props_cons_ok in H.
    destruct H as [[Hk Hr] | (Hk & v' & rest' & Hv & Hr & ->)]; [auto|].
    rewrite clean_props_cons, Hk, (IHv _ Hv), (IHv0 _ Hr). reflexivity.
Qed.

(** The keys of the cleaned object are keys of the object. *)
Lemma clean_props_absent key ps :
  Js.get_prop key ps = None -> Js.get_prop key (fst (clean_props ps)) = None.
Proof.
  induction ps as [|[k x] rest IH]; [reflexivity|].
  intros H. simpl in H.
  destruct (String.eqb k key) eqn:E; [discriminate|].
  rewrite clean_props_cons.
  destruct (identity_key k); [auto|].
  destruct (objectCleaner x) as [x' [e|]]; simpl.
  - rewrite E. exact H.
  - destruct (clean_props rest) as [rest' c]. simpl. rewrite E. auto.
Qed.

(** An identity key does not survive at the top either. *)
Lemma clean_props_identity key ps ps' :
  clean_props ps = (ps', None) -> identity_key key = true ->
  Js.get_prop key ps' = None.
Proof.
  intros H Hk. revert ps' H.
  induction ps as [|[k x] rest IH]; intros ps' H.
  - injection H as <-. reflexivity.
  - apply clean_props_cons_ok in H.
    destruct H as [[_ Hr] | (Hk' & v' & rest' & _ & Hr & ->)]; [auto|].
    simpl. destruct (String.eqb k key) eqn:E; [|auto].
    apply String.eqb_eq in E. congruence.
Qed.

(** A property under another key is kept, cleaned. *)
Lemma clean_props_get key ps ps' :
  clean_props ps = (ps', None) -> identity_key key = false ->
  match Js.get_prop key ps with
  | None => Js.get_prop key ps' = None
  | Some v =>
      exists v', objectCleaner v = (v', None) /\ Js.get_prop key ps' = Some v'
  end.
Proof.
  intros H Hk. revert ps' H.
  induction ps as [|[k x] rest IH]; intros ps' H.
  - injection H as <-. reflexivity.
  - apply clean_props_cons_ok in H.
    destruct H as [[Hk' Hr] | (Hk' & v' & rest' & Hv & Hr & ->)].
    + simpl. destruct (String.eqb k key) eqn:E; [|exact (IH _ Hr)].
      apply String.eqb_eq in E. congruence.
    + simpl. destruct (String.eqb k key) eqn:E; [eauto | exact (IH _ Hr)].
Qed.

(** Cleaning keeps the kind of a value. *)
Lemma objectCleaner_kind v v' :
  objectCleaner v = (v', None) ->
  match v with
  | JNull => False
  | JArr xs => exists xs', v' = JArr xs' /\ clean_elems xs = (xs', None)
  | JObj ps => exists ps', v' = JObj ps' /\ clean_props ps = (ps', None)
  | _ => v' = v
  end.
Proof.
  destruct v; try (intros [= <-]; reflexivity); try discriminate.
  - rewrite objectCleaner_arr. destruct (clean_elems elems) as [xs' c].
    intros [= <- ->]. eauto.
  - rewrite objectCleaner_obj. destruct (clean_props props) as [ps' c].
    intros [= <- ->]. eauto.
Qed.

Lemma objectCleaner_truthy v v' :
  objectCleaner v = (v', None) -> Js.truthy (Some v') = Js.truthy (Some v).
Proof.
  intros H. apply objectCleaner_kind in H.
  destruct v; try (subst; reflexivity); try contradiction.
  - destruct H as (? & -> & _). reflexivity.
  - destruct H as (? & -> & _). reflexivity.
Qed.

(** [v?.key] commutes with cleaning. *)
Lemma opt_member_cleaned key v v' :
  objectCleaner v = (v', None) -> identity_key key = false ->
  match Js.opt_member (Some v) key with
  | None => Js.opt_member (Some v') key = None
  | Some w =>
      exists w', objectCleaner w = (w', None) /\
                 Js.opt_member (Some v') key = Some w'
  end.
Proof.
  intros H Hk. apply objectCleaner_kind in H.
  destruct v; try (subst; reflexivity); try contradiction.
  - destruct H as (? & -> & _). reflexivity.
  - destruct H as (ps' & -> & Hc). simpl.
    exact (clean_props_get key props ps' Hc Hk).
Qed.

(** The provenance test gives the same answer on the cleaned entry. *)
Lemma from_contact_cleaned x x' :
  objectCleaner x = (x', None) -> from_contact x' = from_contact x.
Proof.
  intros H. pose proof (objectCleaner_kind _ _ H) as Hkind.
  assert (Hx : x <> JNull) by (destruct x; [contradiction|discriminate..]).
  assert (Hx' : x' <> JNull).
  { destruct x; try contradiction; try (subst; discriminate);
      destruct Hkind as (? & -> & _); discriminate. }
  unfold from_contact, Js.member.
  destruct x as [| | | | |] eqn:Ex; [congruence|..];
    destruct x' as [| | | | |] eqn:Ex'; try congruence; f_equal;
    rewrite <- Ex in *; rewrite <- Ex' in *; clear Ex Ex' Hkind Hx Hx'.
  all: pose proof (opt_member_cleaned "metadata" _ _ H eq_refl) as H1.
  all: destruct (Js.opt_member (Some x) "metadata") as [md|];
    [destruct H1 as (md' & Hmd & ->) | rewrite H1; reflexivity].
  all: pose proof (opt_member_cleaned "source" _ _ Hmd eq_refl) as H2.
  all: destruct (Js.opt_member (Some md) "source") as [src|];
    [destruct H2 as (src' & Hsrc & ->) | rewrite H2; reflexivity].
  all: pose proof (opt_member_cleaned "type" _ _ Hsrc eq_refl) as H3.
  all: destruct (Js.opt_member (Some src) "type") as [ty|];
    [destruct H3 as (ty' & Hty & ->) | rewrite H3; reflexivity].
  all: apply objectCleaner_kind in Hty.
  all: destruct ty; try contradiction; try (subst; reflexivity).
  all: destruct Hty as (? & -> & _); reflexivity.
Qed.

End Cleaner.


(** ** The record that [processContact] leaves *)

Section Record.

Import Sanitizer.

Implicit Types (obj : object) (key : string) (options : Options).

Lemma filter_all_pass xs : forall ys,
  filter_from_contact xs = Normal ys ->
  Forall (fun x => from_contact x = Normal true) ys.
Proof.
  induction xs as [|x rest IH]; intros ys; simpl.
  - intros [= <-]. constructor.
  - destruct (from_contact x) as [keep|e] eqn:E; [|discriminate].
    destruct (filter_from_contact rest) as [rest'|e]; [|discriminate].
    intros [= <-]. destruct keep; [constructor|]; auto.
Qed.

Lemma filter_of_passing ys :
  Forall (fun x => from_contact x = Normal true) ys ->
  filter_from_contact ys = Normal ys.
Proof.
  induction 1 as [|x rest Hx _ IH]; simpl; [reflexivity|].
  rewrite Hx, IH. reflexivity.
Qed.

Lemma clean_elems_pass xs : forall xs',
  clean_elems xs = (xs', None) ->
  Forall (fun x => from_contact x = Normal true) xs ->
  Forall (fun x => from_contact x = Normal true) xs'.
Proof.
  induction xs as [|x rest IH]; intros xs' H Hall.
  - injection H as <-. constructor.
  - apply clean_elems_cons_ok in H.
    destruct H as (v' & rest' & Hv & Hr & ->).
    inversion Hall as [|? ? Hx Hrest]; subst. constructor.
    + rewrite (from_contact_cleaned _ _ Hv). exact Hx.
    + auto.
Qed.

(** A field on which the provenance filter has nothing left to do: it is
    falsy, or an array of entries that all pass. *)
Lemma kept_get key obj o1 :
  kept key obj = Normal o1 ->
  Js.truthy (Js.get_prop key o1) = false \/
  exists ys, Js.get_prop key o1 = Some (JArr ys) /\
             Forall (fun x => from_contact x = Normal true) ys.
Proof.
  unfold kept. destruct (Js.truthy (Js.get_prop key obj)) eqn:T.
  - destruct (Js.get_prop key obj) as [[| | | |xs|]|]; simpl; try discriminate.
    destruct (filter_from_contact xs) as [ys|e] eqn:F; [|discriminate].
    intros [= <-]. right. exists ys. rewrite get_set_same.
    split; [reflexivity|]. exact (filter_all_pass _ _ F).
  - intros [= <-]. left. exact T.
Qed.

Lemma kept_get_other key k obj o1 :
  kept k obj = Normal o1 -> k ≠ key ->
  Js.get_prop key o1 = Js.get_prop key obj.
Proof.
  unfold kept. destruct (Js.truthy (Js.get_prop k obj)).
  - destruct (call_filter (Js.get_prop k obj)); [|discriminate].
    intros [= <-] Hne. apply get_set_other. exact Hne.
  - intros [= <-] _. reflexivity.
Qed.

Lemma kept_fixed key obj :
  (Js.truthy (Js.get_prop key obj) = false \/
   exists ys, Js.get_prop key obj = Some (JArr ys) /\
              Forall (fun x => from_contact x = Normal true) ys) ->
  kept key obj = Normal obj.
Proof.
  unfold kept. intros [T | (ys & G & Hall)].
  - rewrite T. reflexivity.
  - rewrite G. simpl. rewrite (filter_of_passing _ Hall).
    rewrite (set_same_value _ _ _ G). reflexivity.
Qed.

(** Such a field is still one after a cleaning that completes. *)
Lemma settled_cleaned key ps ps' :
  clean_props ps = (ps', None) -> identity_key key = false ->
  (Js.truthy (Js.get_prop key ps) = false \/
   exists ys, Js.get_prop key ps = Some (JArr ys) /\
              Forall (fun x => from_contact x = Normal true) ys) ->
  (Js.truthy (Js.get_prop key ps') = false \/
   exists ys, Js.get_prop key ps' = Some (JArr ys) /\
              Forall (fun x => from_contact x = Normal true) ys).
Proof.
  intros Hc Hk Hs. pose proof (clean_props_get key ps ps' Hc Hk) as G.
  destruct (Js.get_prop key ps) as [v|].
  - destruct G as (v' & Hv & ->). destruct Hs as [T | (ys & [= ->] & Hall)].
    + left. rewrite (objectCleaner_truthy _ _ Hv). exact T.
    + right. apply objectCleaner_kind in Hv. destruct Hv as (ys' & -> & Hys).
      exists ys'. split; [reflexivity|]. exact (clean_elems_pass _ _ Hys Hall).
  - rewrite G. left. reflexivity.
Qed.

Lemma stripped_absent key obj :
  In key read_only_fields -> Js.get_prop key (stripped obj) = None.
Proof.
  unfold read_only_fields, stripped. simpl.
  intros [<- | [<- | [<- | [<- | [<- | []]]]]];
    repeat first [ apply get_delete_same | apply get_delete_none ].
Qed.

Lemma stripped_fixed obj :
  (forall key, In key read_only_fields -> Js.get_prop key obj = None) ->
  stripped obj = obj.
Proof.
  intros H. unfold stripped.
  rewrite (delete_absent "metadata" obj) by (apply H; simpl; tauto).
  rewrite (delete_absent "resourceName") by (apply H; simpl; tauto).
  rewrite (delete_absent "etag") by (apply H; simpl; tauto).
  rewrite (delete_absent "photos") by (apply H; simpl; tauto).
  rewrite (delete_absent "coverPhotos") by (apply H; simpl; tauto).
  apply delete_absent. apply H. simpl. tauto.
Qed.

(** The membership entries hold no identity key: cleaning keeps them. *)
Lemma clean_memberships groups :
  clean_elems (List.map membership groups) = (List.map membership groups, None).
Proof.
  induction groups as [|g rest IH]; [reflexivity|].
  cbn [List.map]. rewrite clean_elems_cons. cbn. rewrite IH. reflexivity.
Qed.

Lemma objectCleaner_memberships options :
  objectCleaner (memberships_for options) = (memberships_for options, None).
Proof.
  unfold memberships_for. rewrite objectCleaner_arr, clean_elems_cons. cbn.
  destruct (contactGroups options) as [groups|]; [|reflexivity].
  rewrite clean_memberships. reflexivity.
Qed.

(** How a completed run decomposes. *)
Lemma record_after_ok obj options r :
  record_after obj options = (r, None) ->
  exists o1 o2,
    kept "names" (stripped obj) = Normal o1 /\
    kept "emailAddresses" o1 = Normal o2 /\
    clean_props (Js.set_prop "memberships" (memberships_for options) o2)
      = (r, None).
Proof.
  unfold record_after.
  destruct (kept "names" (stripped obj)) as [o1|e]; [|discriminate].
  destruct (kept "emailAddresses" o1) as [o2|e] eqn:E2; [|discriminate].
  intros H. exists o1, o2. auto.
Qed.

Lemma record_after_read_only obj options r key :
  record_after obj options = (r, None) ->
  In key read_only_fields -> Js.get_prop key r = None.
Proof.
  intros H Hin. apply record_after_ok in H.
  destruct H as (o1 & o2 & H1 & H2 & H3).
  replace r with
    (fst (clean_props (Js.set_prop "memberships" (memberships_for options) o2)))
    by (rewrite H3; reflexivity).
  apply clean_props_absent.
  assert (Hne : forall k, In k ["names"; "emailAddresses"; "memberships"] ->
                          k ≠ key).
  { unfold read_only_fields in Hin. simpl in *. intros k Hk ->.
    repeat (destruct Hk as [Hk|Hk]; [subst key|]);
      repeat (destruct Hin as [Hin|Hin]; try discriminate); auto. }
  rewrite get_set_other by (apply Hne; simpl; auto).
  rewrite (kept_get_other _ _ _ _ H2) by (apply Hne; simpl; auto).
  rewrite (kept_get_other _ _ _ _ H1) by (apply Hne; simpl; auto).
  apply stripped_absent. exact Hin.
Qed.

Lemma record_after_memberships obj options r :
  record_after obj options = (r, None) ->
  Js.get_prop "memberships" r = Some (memberships_for options).
Proof.
  intros H. apply record_after_ok in H.
  destruct H as (o1 & o2 & _ & _ & H3).
  pose proof (clean_props_get "memberships" _ _ H3 eq_refl) as G.
  rewrite get_set_same in G. destruct G as (v' & Hv & ->).
  rewrite objectCleaner_memberships in Hv. congruence.
Qed.

Lemma record_after_clean obj options r :
  record_after obj options = (r, None) -> has_identity_key (JObj r) = false.
Proof.
  intros H. apply record_after_ok in H.
  destruct H as (o1 & o2 & _ & _ & H3).
  apply (objectCleaner_no_identity_key
           (JObj (Js.set_prop "memberships" (memberships_for options) o2))).
  rewrite objectCleaner_obj, H3. reflexivity.
Qed.

(** Running the sanitizer on its own result changes nothing. *)
Lemma record_after_fixed obj options r :
  record_after obj options = (r, None) -> record_after r options = (r, None).
Proof.
  intros H. pose proof H as Hdec. apply record_after_ok in Hdec.
  destruct Hdec as (o1 & o2 & H1 & H2 & H3).
  set (o3 := Js.set_prop "memberships" (memberships_for options) o2) in *.
  assert (Hnames : kept "names" r = Normal r).
  { apply kept_fixed. apply (settled_cleaned "names" o3 r H3 eq_refl).
    unfold o3. rewrite get_set_other by discriminate.
    rewrite (kept_get_other _ _ _ _ H2) by discriminate.
    exact (kept_get _ _ _ H1). }
  assert (Hmail : kept "emailAddresses" r = Normal r).
  { apply kept_fixed. apply (settled_cleaned "emailAddresses" o3 r H3 eq_refl).
    unfold o3. rewrite get_set_other by discriminate.
    exact (kept_get _ _ _ H2). }
  assert (Hclean : clean_props r = (r, None)).
  { pose proof (objectCleaner_idempotent (JObj o3) (JObj r)) as I.
    rewrite !objectCleaner_obj, H3 in I. specialize (I eq_refl).
    destruct (clean_props r) as [r' c]. congruence. }
  unfold record_after.
  rewrite (stripped_fixed r)
    by (intros key Hin; exact (record_after_read_only _ _ _ _ H Hin)).
  rewrite Hnames, Hmail.
  rewrite (set_same_value _ _ _ (record_after_memberships _ _ _ H)).
  exact Hclean.
Qed.

End Record.


(** ** [processContact] on the heap *)

Section Run.

Import Sanitizer.

Implicit Types (h : heap) (l : loc) (obj : object) (options : Options).

Lemma bind_normal {A B} (m : M A) (k : A -> M B) h a h' :
  m h = (Normal a, h') -> bind m k h = k a h'.
Proof. unfold bind. intros ->. reflexivity. Qed.

Lemma bind_throw {A B} (m : M A) (k : A -> M B) h e h' :
  m h = (Throw e, h') -> bind m k h = (Throw e, h').
Proof. unfold bind. intros ->. reflexivity. Qed.

Lemma delete_at l key obj h :
  Heap.delete l key (<[l := obj]> h)
  = (Normal tt, <[l := Js.delete_prop key obj]> h).
Proof.
  unfold Heap.delete, Heap.load, Heap.store, bind.
  rewrite lookup_insert_eq, insert_insert_eq. reflexivity.
Qed.

Lemma set_at l key v obj h :
  Heap.set l key v (<[l := obj]> h)
  = (Normal tt, <[l := Js.set_prop key v obj]> h).
Proof.
  unfold Heap.set, Heap.load, Heap.store, bind.
  rewrite lookup_insert_eq, insert_insert_eq. reflexivity.
Qed.

Lemma keep_at l key obj h :
  keep_contact_entries l key (<[l := obj]> h)
  = match kept key obj with
    | Normal o1 => (Normal tt, <[l := o1]> h)
    | Throw e => (Throw e, <[l := obj]> h)
    end.
Proof.
  unfold keep_contact_entries, kept, Heap.get, Heap.load, bind, ret.
  rewrite lookup_insert_eq.
  destruct (Js.truthy (Js.get_prop key obj)).
  - destruct (call_filter (Js.get_prop key obj)) as [v|e]; simpl.
    + apply set_at.
    + reflexivity.
  - reflexivity.
Qed.

Lemma objectCleaner_at_at l obj h :
  objectCleaner_at l (<[l := obj]> h)
  = (match snd (clean_props obj) with
     | None => Normal tt
     | Some e => Throw e
     end, <[l := fst (clean_props obj)]> h).
Proof.
  unfold objectCleaner_at, Heap.load, Heap.store, bind.
  rewrite lookup_insert_eq. destruct (clean_props obj) as [obj' [e|]];
    simpl; rewrite insert_insert_eq; reflexivity.
Qed.

(** A reference that denotes no record: the first [delete] throws. *)
Lemma processContact_dangling l options h :
  h !! l = None -> processContact l options h = (Throw TypeError, h).
Proof.
  intros H. unfold processContact.
  apply bind_throw. unfold Heap.delete. apply bind_throw.
  unfold Heap.load. rewrite H. reflexivity.
Qed.

(** The code computes [record_after], in place. *)
Lemma processContact_run l options h obj :
  h !! l = Some obj ->
  processContact l options h
  = (match snd (record_after obj options) with
     | None => Normal l
     | Some e => Throw e
     end, <[l := fst (record_after obj options)]> h).
Proof.
  intros H. rewrite <- (insert_id h l obj H) at 1.
  unfold processContact, record_after.
  do 6 (erewrite bind_normal by apply delete_at).
  fold (stripped obj).
  unfold bind at 1. rewrite keep_at.
  destruct (kept "names" (stripped obj)) as [o1|e]; [|reflexivity].
  unfold bind at 1. rewrite keep_at.
  destruct (kept "emailAddresses" o1) as [o2|e]; [|reflexivity].
  erewrite bind_normal by apply set_at.
  unfold bind at 1. rewrite objectCleaner_at_at.
  replace (JArr _) with (memberships_for options)
    by (unfold memberships_for; destruct (contactGroups options); reflexivity).
  destruct (clean_props _) as [r [e|]]; reflexivity.
Qed.

(** *** Records on which the call returns *)

Lemma null_free_cons key v rest :
  null_free (JObj ((key, v) :: rest)) = null_free v && null_free (JObj rest).
Proof. reflexivity. Qed.

Lemma null_free_arr_cons v rest :
  null_free (JArr (v :: rest)) = null_free v && null_free (JArr rest).
Proof. reflexivity. Qed.

Lemma objectCleaner_completes v :
  null_free v = true -> snd (objectCleaner v) = None.
Proof.
  induction v using json_rect' with
    (Q := fun xs => null_free (JArr xs) = true -> snd (clean_elems xs) = None)
    (R := fun ps => null_free (JObj ps) = true -> snd (clean_props ps) = None);
    try reflexivity; try discriminate.
  - intros H. rewrite objectCleaner_arr.
    specialize (IHv H). destruct (clean_elems l). exact IHv.
  - intros H. rewrite objectCleaner_obj.
    specialize (IHv H). destruct (clean_props ps). exact IHv.
  - rewrite null_free_arr_cons. intros [Hx Hl]%andb_prop.
    rewrite clean_elems_cons. specialize (IHv Hx). specialize (IHv0 Hl).
    destruct (objectCleaner v) as [v' c]. simpl in IHv. subst c.
    destruct (clean_elems l). exact IHv0.
  - rewrite null_free_cons. intros [Hx Hl]%andb_prop.
    rewrite clean_props_cons. specialize (IHv Hx). specialize (IHv0 Hl).
    destruct (identity_key k); [exact IHv0|].
    destruct (objectCleaner v) as [v' c]. simpl in IHv. subst c.
    destruct (clean_props ps). exact IHv0.
Qed.

Lemma null_free_get key obj v :
  null_free (JObj obj) = true -> Js.get_prop key obj = Some v ->
  null_free v = true.
Proof.
  induction obj as [|[k x] rest IH]; [discriminate|].
  rewrite null_free_cons. intros [Hx Hr]%andb_prop. simpl.
  destruct (String.eqb k key); [intros [= <-]; exact Hx | auto].
Qed.

Lemma null_free_delete key obj :
  null_free (JObj obj) = true -> null_free (JObj (Js.delete_prop key obj)) = true.
Proof.
  induction obj as [|[k x] rest IH]; [reflexivity|].
  rewrite null_free_cons. intros [Hx Hr]%andb_prop.
  unfold Js.delete_prop in *. cbn [List.filter fst].
  destruct (negb (String.eqb k key)); [|auto].
  rewrite null_free_cons, Hx. simpl. auto.
Qed.

Lemma null_free_set key v obj :
  null_free (JObj obj) = true -> null_free v = true ->
  null_free (JObj (Js.set_prop key v obj)) = true.
Proof.
  intros Hobj Hv. induction obj as [|[k x] rest IH].
  - cbn [Js.set_prop]. rewrite null_free_cons, Hv. reflexivity.
  - rewrite null_free_cons in Hobj. apply andb_prop in Hobj as [Hx Hr].
    cbn [Js.set_prop]. destruct (String.eqb k key); rewrite null_free_cons.
    + rewrite Hv. exact Hr.
    + rewrite Hx. simpl. auto.
Qed.

Lemma stripped_null_free obj :
  null_free (JObj obj) = true -> null_free (JObj (stripped obj)) = true.
Proof. intros H. unfold stripped. repeat apply null_free_delete. exact H. Qed.

Lemma stripped_get key obj :
  ~ In key read_only_fields ->
  Js.get_prop key (stripped obj) = Js.get_prop key obj.
Proof.
  unfold read_only_fields, stripped. simpl. intros H.
  rewrite !get_delete_other; [reflexivity | intros E; apply H; tauto ..].
Qed.

(** The filter does not throw on entries that are not [null], and keeps
    some of them. *)
Lemma filter_completes xs :
  null_free (JArr xs) = true ->
  exists ys, filter_from_contact xs = Normal ys /\ null_free (JArr ys) = true.
Proof.
  induction xs as [|x rest IH]; [exists []; auto|].
  rewrite null_free_arr_cons. intros [Hx Hr]%andb_prop.
  destruct (IH Hr) as (ys & F & Hys). cbn [filter_from_contact].
  assert (exists keep, from_contact x = Normal keep) as [keep ->].
  { unfold from_contact, Js.member. destruct x; try discriminate; eauto. }
  rewrite F. destruct keep; [|eauto].
  exists (x :: ys). rewrite null_free_arr_cons, Hx. auto.
Qed.

Lemma kept_completes key obj :
  null_free (JObj obj) = true -> filterable (Js.get_prop key obj) = true ->
  exists o1, kept key obj = Normal o1 /\ null_free (JObj o1) = true.
Proof.
  intros Hobj Hf. unfold kept.
  destruct (Js.truthy (Js.get_prop key obj)) eqn:T; [|eauto].
  destruct (Js.get_prop key obj) as [v|] eqn:G; [|discriminate].
  pose proof (null_free_get _ _ _ Hobj G) as Hv.
  destruct v as [| | | |xs|]; simpl in Hf, T; try congruence;
    try (rewrite T in Hf; discriminate).
  destruct (filter_completes xs Hv) as (ys & F & Hys).
  simpl. rewrite F. eexists. split; [reflexivity|].
  apply null_free_set; assumption.
Qed.

Lemma memberships_null_free options :
  null_free (memberships_for options) = true.
Proof.
  assert (H : forall groups,
             null_free (JArr (List.map membership groups)) = true).
  { induction groups as [|g rest IH]; [reflexivity|].
    cbn [List.map]. rewrite null_free_arr_cons, IH. reflexivity. }
  unfold memberships_for. rewrite null_free_arr_cons.
  destruct (contactGroups options) as [groups|]; [|reflexivity].
  rewrite H. reflexivity.
Qed.

(** On a record without [null] whose [names] and [emailAddresses] are
    arrays (or falsy), [processContact] returns. *)
Lemma processContact_total l options h obj :
  h !! l = Some obj -> well_formed obj = true ->
  exists rec, processContact l options h = (Normal l, <[l := rec]> h).
Proof.
  intros Hl [[Hnf Hn]%andb_prop Hm]%andb_prop.
  rewrite (processContact_run _ _ _ _ Hl). unfold record_after.
  assert (Hout : forall key, In key ["names"; "emailAddresses"] ->
                             ~ In key read_only_fields).
  { simpl. intros key Hk H.
    repeat (destruct Hk as [<-|Hk]; [|]);
      repeat (destruct H as [H|H]; try discriminate); tauto. }
  destruct (kept_completes "names" (stripped obj)) as (o1 & K1 & H1).
  { apply stripped_null_free, Hnf. }
  { rewrite stripped_get; [exact Hn|]. apply Hout. simpl. tauto. }
  destruct (kept_completes "emailAddresses" o1) as (o2 & K2 & H2).
  { exact H1. }
  { rewrite (kept_get_other _ _ _ _ K1) by discriminate.
    rewrite stripped_get; [exact Hm|]. apply Hout. simpl. tauto. }
  rewrite K1.
  rewrite K2.
  pose proof (objectCleaner_completes
                (JObj (Js.set_prop "memberships" (memberships_for options) o2)))
    as Hc.
  rewrite objectCleaner_obj in Hc.
  destruct (clean_props _) as [rec c]. simpl in *.
  rewrite Hc; [eauto|].
  apply null_free_set; [exact H2 | apply memberships_null_free].
Qed.

End Run.



(** ** The sanitizer against the stated expectations *)

Section Links.

Import Sanitizer.

Lemma lookup_get_prop key obj : Expected.lookup key obj = Js.get_prop key obj.
Proof.
  unfold Expected.lookup. induction obj as [|[k x] rest IH]; [reflexivity|].
  simpl. destruct (String.eqb k key); [reflexivity | exact IH].
Qed.

Lemma get_none_not_in key obj :
  Js.get_prop key obj = None -> ~ In key (List.map fst obj).
Proof.
  induction obj as [|[k x] rest IH]; simpl; [tauto|].
  destruct (String.eqb k key) eqn:E; [discriminate|].
  intros H [Hk|Hin]; [|exact (IH H Hin)].
  subst k. rewrite String.eqb_refl in E. discriminate.
Qed.

(** The keys that [objectCleaner] deletes are [id] and [resourceName]. *)
Lemma has_identity_key_mentions v :
  has_identity_key v
  = Expected.mentions_key "id" v || Expected.mentions_key "resourceName" v.
Proof.
  induction v using json_rect' with
    (Q := fun xs => has_identity_key (JArr xs)
                    = Expected.mentions_key "id" (JArr xs)
                      || Expected.mentions_key "resourceName" (JArr xs))
    (R := fun ps => has_identity_key (JObj ps)
                    = Expected.mentions_key "id" (JObj ps)
                      || Expected.mentions_key "resourceName" (JObj ps));
    try reflexivity; try assumption.
  - change (has_identity_key v || has_identity_key (JArr l)
            = (Expected.mentions_key "id" v
               || Expected.mentions_key "id" (JArr l))
              || (Expected.mentions_key "resourceName" v
                  || Expected.mentions_key "resourceName" (JArr l))).
    rewrite IHv, IHv0.
    repeat match goal with |- context [Expected.mentions_key ?a ?b] =>
      destruct (Expected.mentions_key a b) end; reflexivity.
  - change (identity_key k || has_identity_key v || has_identity_key (JObj ps)
            = (String.eqb k "id" || Expected.mentions_key "id" v
               || Expected.mentions_key "id" (JObj ps))
              || (String.eqb k "resourceName"
                  || Expected.mentions_key "resourceName" v
                  || Expected.mentions_key "resourceName" (JObj ps))).
    rewrite IHv, IHv0. unfold identity_key.
    destruct (String.eqb k "id"), (String.eqb k "resourceName");
    repeat match goal with |- context [Expected.mentions_key ?a ?b] =>
      destruct (Expected.mentions_key a b) end; reflexivity.
Qed.

Lemma no_identity_key_mentions v :
  has_identity_key v = false ->
  Expected.mentions_key "id" v = false /\
  Expected.mentions_key "resourceName" v = false.
Proof. rewrite has_identity_key_mentions. apply orb_false_elim. Qed.

(** What a cleaning that completes leaves is the value without its [id]
    and [resourceName] properties. *)
Lemma objectCleaner_without_keys v :
  forall v', objectCleaner v = (v', None) ->
             v' = Expected.without_keys ["id"; "resourceName"] v.
Proof.
  induction v using json_rect' with
    (Q := fun xs => forall xs', clean_elems xs = (xs', None) ->
            JArr xs' = Expected.without_keys ["id"; "resourceName"] (JArr xs))
    (R := fun ps => forall ps', clean_props ps = (ps', None) ->
            JObj ps' = Expected.without_keys ["id"; "resourceName"] (JObj ps));
    try (intros v' [= <-]; reflexivity).
  - intros v'. rewrite objectCleaner_arr.
    destruct (clean_elems l) as [xs' c] eqn:E. intros [= <- ->]. auto.
  - intros v'. rewrite objectCleaner_obj.
    destruct (clean_props ps) as [ps' c] eqn:E. intros [= <- ->]. auto.
  - intros xs' H. apply clean_elems_cons_ok in H.
    destruct H as (v' & rest' & Hv & Hr & ->).
    specialize (IHv _ Hv). specialize (IHv0 _ Hr).
    simpl in *. injection IHv0 as IHv0.
    rewrite <- IHv, <- IHv0. reflexivity.
  - intros ps' H. apply clean_props_cons_ok in H.
    destruct H as [[Hid Hr] | (Hid & v' & rest' & Hv & Hr & ->)];
      unfold identity_key in Hid.
    + specialize (IHv0 _ Hr). simpl in *. rewrite orb_false_r, Hid.
      exact IHv0.
    + specialize (IHv _ Hv). specialize (IHv0 _ Hr). simpl in *.
      rewrite orb_false_r, Hid. injection IHv0 as IHv0.
      rewrite <- IHv, <- IHv0. reflexivity.
Qed.

(** The callback of [filter] keeps the entries tagged [CONTACT]. *)
Lemma passes_contact_sourced x :
  Provenance.passes x = Expected.contact_sourced x.
Proof.
  unfold Provenance.passes, from_contact, Js.member, Expected.contact_sourced.
  destruct x as [| | | | |props]; try reflexivity.
  simpl. rewrite lookup_get_prop.
  destruct (Js.get_prop "metadata" props) as [[| | | | |md]|]; try reflexivity.
  simpl. rewrite lookup_get_prop.
  destruct (Js.get_prop "source" md) as [[| | | | |src]|]; try reflexivity.
  simpl. rewrite lookup_get_prop.
  destruct (Js.get_prop "type" src) as [[| | |t| |]|]; try reflexivity.
  destruct (String.eqb t "CONTACT"); reflexivity.
Qed.

(** The memberships that the code writes are the expected ones. *)
Lemma memberships_for_expected options :
  memberships_for options
  = Expected.memberships (default [] (contactGroups options)).
Proof.
  unfold memberships_for, Expected.memberships.
  destruct (contactGroups options); reflexivity.
Qed.

End Links.


(** ** The sanitizer claims *)

Section SanitizerClaims.

Import Sanitizer.

Implicit Types (h : heap) (l : loc) (options : Options).

(** A call that returns was given a record, and leaves [record_after]. *)
Lemma processContact_returns l options h r h' :
  processContact l options h = (Normal r, h') ->
  exists obj rec,
    h !! l = Some obj /\ record_after obj options = (rec, None) /\
    r = l /\ h' = <[l := rec]> h.
Proof.
  destruct (h !! l) as [obj|] eqn:E.
  - rewrite (processContact_run _ _ _ _ E).
    destruct (record_after obj options) as [rec [e|]] eqn:R; simpl;
      [discriminate|].
    intros [= <- <-]. exists obj, rec. auto.
  - rewrite (processContact_dangling _ _ _ E). discriminate.
Qed.

(** The sample person: the call returns the reference and the heap holds
    the sanitized record under it. *)
Example processContact_ann :
  processContact 0 Samples.no_groups {[ 0 := Samples.ann ]}
  = (Normal 0, {[ 0 := Samples.ann_sanitized ]}).
Proof. vm_compute. reflexivity. Qed.

(** C4, as stated, fails: the caller's record is not what it was. *)
Lemma sanitize_changes_argument :
  ~ (forall l options h,
       snd (processContact l options h) !! l = h !! l).
Proof.
  intros H. specialize (H 0 Samples.no_groups {[ 0 := Samples.ann ]}).
  vm_compute in H. discriminate.
Qed.

(** C4, amended: [processContact] works on the caller's record in place.
    When it returns, it returns the reference it was given, and the heap
    holds the sanitized record under that reference; no other record of
    the heap is touched, whether the call returns or throws. *)
Theorem sanitize_in_place l options h c h' :
  processContact l options h = (c, h') ->
  (forall r, c = Normal r ->
     r = l /\
     exists obj, h !! l = Some obj /\
                 h' !! l = Some (fst (record_after obj options))) /\
  (forall l', l' ≠ l -> h' !! l' = h !! l').
Proof.
  destruct (h !! l) as [obj|] eqn:E.
  - rewrite (processContact_run _ _ _ _ E). intros [= <- <-]. split.
    + intros r Hr. split.
      * destruct (snd (record_after obj options)); congruence.
      * exists obj. rewrite lookup_insert_eq. auto.
    + intros l' Hne. apply lookup_insert_ne. congruence.
  - rewrite (processContact_dangling _ _ _ E). intros [= <- <-]. split.
    + discriminate.
    + reflexivity.
Qed.

Lemma sanitize_in_place_witness :
  let run := processContact 0 Samples.no_groups Samples.two_records in
  run = (Normal 0, snd run) /\
  (forall r, Normal 0 = Normal r ->
     r = 0 /\
     exists obj, Samples.two_records !! 0 = Some obj /\
                 snd run !! 0
                 = Some (fst (record_after obj Samples.no_groups))) /\
  (forall l', l' ≠ 0 -> snd run !! l' = Samples.two_records !! l').
Proof.
  intros run.
  assert (H : run = (Normal 0, snd run)) by (vm_compute; reflexivity).
  split; [exact H|].
  exact (sanitize_in_place 0 Samples.no_groups Samples.two_records _ _ H).
Defined.

(** C5 fails on the code: a record with a [null] field makes
    [objectCleaner] call [Object.keys(null)]. *)
Theorem sanitize_throws_on_null_field :
  fst (processContact 0 Samples.no_groups {[ 0 := Samples.with_null ]})
  = Throw TypeError.
Proof. vm_compute. reflexivity. Qed.

(** C6: the record that [processContact] returns has no [resourceName],
    [etag], [photos] or [coverPhotos] field, and no [id] or
    [resourceName] key at any depth. *)
Theorem sanitized_has_no_server_fields l options h r h' :
  processContact l options h = (Normal r, h') ->
  exists rec,
    h' !! r = Some rec /\
    ~ In "resourceName" (List.map fst rec) /\
    ~ In "etag" (List.map fst rec) /\
    ~ In "photos" (List.map fst rec) /\
    ~ In "coverPhotos" (List.map fst rec) /\
    Expected.mentions_key "id" (JObj rec) = false /\
    Expected.mentions_key "resourceName" (JObj rec) = false.
Proof.
  intros H. apply processContact_returns in H.
  destruct H as (obj & rec & _ & Hrec & -> & ->).
  exists rec. rewrite lookup_insert_eq.
  destruct (no_identity_key_mentions _ (record_after_clean _ _ _ Hrec))
    as [Hid Hrn].
  repeat split; try assumption;
    apply get_none_not_in, (record_after_read_only _ _ _ _ Hrec);
    simpl; tauto.
Qed.

Lemma sanitized_has_no_server_fields_witness :
  let run := processContact 0 Samples.groups_ab {[ 0 := Samples.ann ]} in
  run = (Normal 0, snd run) /\
  exists rec,
    snd run !! 0 = Some rec /\
    ~ In "resourceName" (List.map fst rec) /\
    ~ In "etag" (List.map fst rec) /\
    ~ In "photos" (List.map fst rec) /\
    ~ In "coverPhotos" (List.map fst rec) /\
    Expected.mentions_key "id" (JObj rec) = false /\
    Expected.mentions_key "resourceName" (JObj rec) = false.
Proof.
  intros run.
  assert (H : run = (Normal 0, snd run)) by (vm_compute; reflexivity).
  split; [exact H|].
  exact (sanitized_has_no_server_fields 0 Samples.groups_ab _ _ _ H).
Defined.

(** C7: the [memberships] of the returned record are exactly the entry
    of the default group [contactGroups/myContacts] followed by the
    entries of [contactGroups/a] and [contactGroups/b] when the groups
    are [a] and [b], and the default entry alone when the groups are
    empty or absent, whatever memberships the record held. *)
Theorem sanitized_memberships l options h r h' :
  processContact l options h = (Normal r, h') ->
  exists rec,
    h' !! r = Some rec /\
    (contactGroups options = Some ["a"; "b"] ->
     Js.get_prop "memberships" rec
     = Some (JArr [JObj [("contactGroupMembership",
                         JObj [("contactGroupResourceName",
                                JStr "contactGroups/myContacts")])];
                   JObj [("contactGroupMembership",
                         JObj [("contactGroupResourceName",
                                JStr "contactGroups/a")])];
                   JObj [("contactGroupMembership",
                         JObj [("contactGroupResourceName",
                                JStr "contactGroups/b")])]]))
    /\
    (contactGroups options = Some [] \/ contactGroups options = None ->
     Js.get_prop "memberships" rec
     = Some (JArr [JObj [("contactGroupMembership",
                         JObj [("contactGroupResourceName",
                                JStr "contactGroups/myContacts")])]])).
Proof.
  intros H. apply processContact_returns in H.
  destruct H as (obj & rec & _ & Hrec & -> & ->).
  exists rec. rewrite lookup_insert_eq.
  pose proof (record_after_memberships _ _ _ Hrec) as G.
  unfold memberships_for in G.
  split; [reflexivity|]. split.
  - intros E. rewrite E in G. exact G.
  - intros [E|E]; rewrite E in G; exact G.
Qed.

Lemma sanitized_memberships_witness :
  let run := processContact 0 Samples.groups_ab {[ 0 := Samples.ann ]} in
  run = (Normal 0, snd run) /\
  exists rec,
    snd run !! 0 = Some rec /\
    (contactGroups Samples.groups_ab = Some ["a"; "b"] ->
     Js.get_prop "memberships" rec
     = Some (JArr [JObj [("contactGroupMembership",
                         JObj [("contactGroupResourceName",
                                JStr "contactGroups/myContacts")])];
                   JObj [("contactGroupMembership",
                         JObj [("contactGroupResourceName",
                                JStr "contactGroups/a")])];
                   JObj [("contactGroupMembership",
                         JObj [("contactGroupResourceName",
                                JStr "contactGroups/b")])]]))
    /\
    (contactGroups Samples.groups_ab = Some [] \/ contactGroups Samples.groups_ab = None ->
     Js.get_prop "memberships" rec
     = Some (JArr [JObj [("contactGroupMembership",
                         JObj [("contactGroupResourceName",
                                JStr "contactGroups/myContacts")])]])).
Proof.
  intros run.
  assert (H : run = (Normal 0, snd run)) by (vm_compute; reflexivity).
  split; [exact H|].
  exact (sanitized_memberships 0 Samples.groups_ab _ _ _ H).
Defined.

(** C8: sanitizing the sanitized record again gives the same record, and
    completes the same way. *)
Theorem sanitize_idempotent l options h :
  bind (processContact l options) (fun r => processContact r options) h
  = processContact l options h.
Proof.
  destruct (processContact l options h) as [[r|e] h'] eqn:E.
  - rewrite (bind_normal _ _ _ _ _ E).
    apply processContact_returns in E.
    destruct E as (obj & rec & _ & Hrec & -> & ->).
    rewrite (processContact_run l options _ rec) by apply lookup_insert_eq.
    rewrite (record_after_fixed _ _ _ Hrec). simpl.
    rewrite insert_insert_eq. reflexivity.
  - apply bind_throw. exact E.
Qed.

End SanitizerClaims.


(** ** The fetcher claims *)

Section FetcherClaims.

Import Fetcher.

Lemma flat_app a b : flat (a ++ b) = (flat a ++ flat b)%list.
Proof. unfold flat. rewrite List.map_app, List.concat_app. reflexivity. Qed.

Lemma flat_pages pages :
  flat (List.map Some pages) = List.map Some (List.concat pages).
Proof.
  unfold flat. induction pages as [|page more IH]; [reflexivity|].
  simpl in *. rewrite IH, List.map_app. reflexivity.
Qed.

(** The loop of [listContacts] walks the whole chain of pages. *)
Lemma listContacts_loop_complete list_connections pages :
  forall fuel acc token,
    length pages <= fuel ->
    serves list_connections 1000 token pages ->
    listContacts_loop fuel list_connections acc token
    = Some (Normal (flat (acc ++ List.map Some pages))).
Proof.
  induction pages as [|page more IH]; intros fuel acc token Hfuel Hs.
  - destruct Hs.
  - destruct Hs as (next & Hreq & Hmore).
    destruct fuel as [|fuel]; [simpl in Hfuel; lia|].
    cbn [listContacts_loop]. rewrite Hreq. cbn [connections nextPageToken].
    destruct more as [|page' more'].
    + rewrite Hmore. reflexivity.
    + destruct Hmore as [Htruthy Hs']. rewrite Htruthy.
      rewrite (IH fuel _ next) by (simpl in *; lia || exact Hs').
      rewrite <- List.app_assoc. reflexivity.
Qed.

(** [listContacts] returns every page of the account, in server order,
    once the fuel covers the number of pages. *)
Lemma listContacts_complete list_connections pages fuel :
  length pages <= fuel ->
  serves list_connections 1000 (Some JNull) pages ->
  listContacts fuel list_connections
  = Some (Normal (List.map Some (List.concat pages))).
Proof.
  intros Hfuel Hs. unfold listContacts.
  rewrite (listContacts_loop_complete _ pages fuel [] _ Hfuel Hs).
  rewrite List.app_nil_l, flat_pages. reflexivity.
Qed.

(** A request that fails aborts the fetch. *)
Lemma listContacts_aborts list_connections fuel e :
  list_connections {| pageSize := 1000; pageToken := Some JNull |} = Throw e ->
  listContacts (S fuel) list_connections = Some (Throw e).
Proof. intros H. unfold listContacts. simpl. rewrite H. reflexivity. Qed.

(** Three pages of 2, 2 and 1 connections come back as the five, in
    order, after three requests. *)
Example listContacts_three_pages :
  listContacts 3 (connections_mock Samples.three_pages)
  = Some (Normal (List.map (fun i => Some (Samples.connection i))
                    (List.seq 0 5)))
  /\ listContacts 2 (connections_mock Samples.three_pages) = None.
Proof. split; reflexivity. Qed.

(** A response without [connections] leaves [undefined] in the result. *)
Example listContacts_empty_account :
  listContacts 1 (connections_mock Samples.empty_account)
  = Some (Normal [None]).
Proof. reflexivity. Qed.

(** C3 fails on the code for contact groups: [listContactGroups] makes
    one request and returns its page.  Of an account with 201 groups it
    returns the first 200, with the token of the page it never asks for. *)
Theorem listContactGroups_returns_first_page_only :
  match listContactGroups (groups_mock Samples.two_pages) with
  | Normal data =>
      contactGroups data = Some (List.map Samples.group (List.seq 0 200)) /\
      groupsNextPageToken data = Some (JStr "page-2") /\
      length (Samples.all_groups Samples.two_pages) = 201
  | Throw _ => False
  end.
Proof. vm_compute. repeat split; reflexivity. Qed.

End FetcherClaims.


(** ** The batch writer claims *)

Section WriterClaims.

Import Writer.

Implicit Types (st : State) (remote : Remote) (h : heap).

(** The loop variable takes the multiples of 25 below [n]. *)
Lemma starts_53 : starts 53 = [0; 25; 50].
Proof. reflexivity. Qed.

(** A turn that starts with nothing in flight and whose request is
    answered before the timer fires ends with nothing in flight, the
    outcome recorded. *)
Lemma turn_prompt remote h processedContacts st i :
  inflight st = [] ->
  let batch := Js.slice i (i + BATCH_SIZE) processedContacts in
  let reply := remote (length (requests st)) (body h batch) in
  (latency reply < 5000)%N ->
  let st' := turn remote h processedContacts st i in
  inflight st' = [] /\
  requests st' = (requests st ++ [batch])%list /\
  now st' = (now st + 5000)%N /\
  match settles reply with
  | Fulfilled data =>
      results st' = (results st ++ [data])%list /\ failed st' = failed st
  | Rejected _ =>
      results st' = results st /\ failed st' = (failed st ++ [batch])%list
  end.
Proof.
  intros Hempty batch reply Hlat. unfold turn, submit, sleep, increment.
  fold batch. fold reply. cbn [now requests inflight results failed progress].
  rewrite Hempty. cbn [app List.filter due].
  replace (now st + latency reply <? now st + 5000)%N with true
    by (symmetry; apply N.ltb_lt; lia).
  cbn [negb sort_by_due List.fold_right insert_by_due List.fold_left].
  unfold settle. cbn [outcome sent].
  destruct (settles reply); cbn; auto.
Qed.

(** With a remote end that always answers within the 5 seconds, every
    batch is settled when the loop ends: one outcome per request. *)
Lemma prompt_remote_all_settled remote h processedContacts :
  (forall k persons, (latency (remote k persons) < 5000)%N) ->
  forall ixs st,
    inflight st = [] ->
    length (results st) + length (failed st) = length (requests st) ->
    let st' := List.fold_left (turn remote h processedContacts) ixs st in
    inflight st' = [] /\
    length (results st') + length (failed st') = length (requests st') /\
    length (requests st') = length (requests st) + length ixs.
Proof.
  intros Hprompt ixs. induction ixs as [|i rest IH]; intros st Hempty Hcount.
  - simpl. repeat split; auto.
  - cbn [List.fold_left].
    pose proof (turn_prompt remote h processedContacts st i Hempty
                  (Hprompt _ _)) as (H1 & H2 & _ & H4).
    cbv zeta in IH. destruct (IH (turn remote h processedContacts st i) H1)
      as (I1 & I2 & I3).
    + rewrite H2. destruct (settles _); destruct H4 as [-> ->];
        rewrite ?length_app; cbn [length]; lia.
    + repeat split; auto. rewrite I3, H2, length_app. cbn [length]. lia.
Qed.

(** *** The batches partition the input *)

Lemma settle_all_requests ps : forall st,
  requests (List.fold_left settle ps st) = requests st.
Proof.
  induction ps as [|p rest IH]; intros st; [reflexivity|].
  cbn [List.fold_left]. rewrite IH. unfold settle.
  destruct (outcome p); reflexivity.
Qed.

Lemma turn_requests remote h processedContacts st i :
  requests (turn remote h processedContacts st i)
  = (requests st ++ [Js.slice i (i + BATCH_SIZE) processedContacts])%list.
Proof.
  unfold turn, increment, sleep. cbn [requests].
  rewrite settle_all_requests. reflexivity.
Qed.

Lemma loop_requests remote h processedContacts ixs : forall st,
  requests (List.fold_left (turn remote h processedContacts) ixs st)
  = (requests st ++
     List.map (fun i => Js.slice i (i + BATCH_SIZE) processedContacts) ixs)%list.
Proof.
  induction ixs as [|i rest IH]; intros st; cbn [List.fold_left List.map].
  - rewrite List.app_nil_r. reflexivity.
  - rewrite IH, turn_requests, <- List.app_assoc. reflexivity.
Qed.

Lemma firstn_chunk {A} (xs : list A) a b :
  (firstn a xs ++ Js.slice a (a + b) xs)%list = firstn (a + b) xs.
Proof.
  unfold Js.slice. replace (a + b - a) with b by lia.
  revert xs. induction a as [|a IH]; intros xs; [reflexivity|].
  destruct xs as [|x xs]; cbn [firstn skipn Nat.add app].
  - rewrite List.firstn_nil. reflexivity.
  - rewrite IH. reflexivity.
Qed.

Lemma chunks_prefix {A} (xs : list A) k :
  List.concat
    (List.map (fun i => Js.slice i (i + BATCH_SIZE) xs)
       (List.map (fun j => j * BATCH_SIZE) (List.seq 0 k)))
  = firstn (k * BATCH_SIZE) xs.
Proof.
  induction k as [|k IH]; [reflexivity|].
  rewrite List.seq_S, !List.map_app, List.concat_app, IH.
  cbn [List.map List.concat Nat.add]. rewrite List.app_nil_r, firstn_chunk.
  f_equal. lia.
Qed.

Lemma starts_below n i : In i (starts n) -> i < n.
Proof.
  unfold starts, BATCH_SIZE. rewrite List.in_map_iff.
  intros (k & <- & Hk). apply List.in_seq in Hk.
  pose proof (Nat.Div0.mul_div_le (n + (25 - 1)) 25). lia.
Qed.

Lemma process_all_entries contacts options : forall h entries h',
  process_all contacts options h = (Normal entries, h') ->
  entries = List.map Build_Entry contacts.
Proof.
  induction contacts as [|l rest IH]; intros h entries h'.
  - intros [= <- _]. reflexivity.
  - cbn [process_all]. unfold bind at 1.
    destruct (Sanitizer.processContact l options h) as [[r|e] h1] eqn:E;
      [|discriminate].
    apply processContact_returns in E. destruct E as (_ & _ & _ & _ & -> & _).
    unfold bind at 1.
    destruct (process_all rest options h1) as [[es|e] h2] eqn:E';
      [|discriminate].
    intros [= <- _]. rewrite (IH _ _ _ E'). reflexivity.
Qed.

(** Whatever the remote end does, the requests made are the input cut
    into consecutive batches of 1 to 25 entries, in input order. *)
Lemma batches_partition remote contacts options h st h' :
  batchCreateContacts remote contacts options h = (Normal st, h') ->
  List.concat (requests st) = List.map Build_Entry contacts /\
  Forall (fun batch => 1 <= length batch <= BATCH_SIZE) (requests st) /\
  length (requests st) = (length contacts + 24) / 25.
Proof.
  unfold batchCreateContacts, bind.
  destruct (process_all contacts options h) as [[entries|e] h1] eqn:E;
    [|discriminate].
  intros [= <- _]. apply process_all_entries in E. subst entries.
  set (entries := List.map Build_Entry contacts).
  rewrite loop_requests. cbn [requests start app]. repeat split.
  - unfold starts. rewrite chunks_prefix. apply List.firstn_all2.
    unfold BATCH_SIZE.
    pose proof (Nat.div_mod_eq (length entries + (25 - 1)) 25).
    pose proof (Nat.mod_upper_bound (length entries + (25 - 1)) 25). lia.
  - apply Forall_forall. intros batch Hin.
    apply list_elem_of_In, List.in_map_iff in Hin.
    destruct Hin as (i & <- & Hi). apply starts_below in Hi.
    unfold Js.slice. rewrite List.length_firstn, List.length_skipn.
    unfold BATCH_SIZE. lia.
  - rewrite List.length_map. unfold starts.
    rewrite List.length_map, List.length_seq. unfold entries.
    rewrite List.length_map. reflexivity.
Qed.

(** With prompt answers the writer does what C1 says: three batches of
    25, 25 and 3, the refused second batch in [failed], the answers to
    the other two in [results], nothing in flight at the return. *)
Example writer_with_prompt_answers :
  match fst (batchCreateContacts Samples.second_fails (List.seq 0 53)
               Samples.no_groups (Samples.people 53)) with
  | Normal st =>
      List.map (List.map contactPerson) (requests st)
        = [List.seq 0 25; List.seq 25 25; List.seq 50 3] /\
      List.map (List.map contactPerson) (failed st) = [List.seq 25 25] /\
      results st
        = [Samples.created (List.map Samples.sanitized (List.seq 0 25));
           Samples.created (List.map Samples.sanitized (List.seq 50 3))] /\
      inflight st = []
  | Throw _ => False
  end.
Proof. vm_compute. repeat split; reflexivity. Qed.

(** C1 fails on the code: the requests are not awaited.  When the answer
    to the third batch takes 6 seconds, the writer returns after 15
    seconds with the third batch still in flight: [results] holds the
    answer for 25 records, not 28. *)
Theorem writer_returns_before_third_batch_completes :
  match fst (batchCreateContacts Samples.second_fails_third_slow
               (List.seq 0 53) Samples.no_groups (Samples.people 53)) with
  | Normal st =>
      List.map (List.map contactPerson) (requests st)
        = [List.seq 0 25; List.seq 25 25; List.seq 50 3] /\
      List.map (List.map contactPerson) (failed st) = [List.seq 25 25] /\
      results st
        = [Samples.created (List.map Samples.sanitized (List.seq 0 25))] /\
      List.map (fun p => List.map contactPerson (sent p)) (inflight st)
        = [List.seq 50 3] /\
      now st = 15000%N /\
      List.map due (inflight st) = [16000%N]
  | Throw _ => False
  end.
Proof. vm_compute. repeat split; reflexivity. Qed.

(** C2 fails on the code: the 5 second timer starts when the request is
    made, not when it settles.  With answers that take 6 seconds the
    writer returns at 5 seconds, and the one batch is in neither
    [results] nor [failed], whether the remote end accepts or refuses
    it. *)
Theorem writer_returns_with_unsettled_batch :
  match fst (batchCreateContacts Samples.slow [0] Samples.no_groups
               (Samples.people 1)),
        fst (batchCreateContacts Samples.slow_refusal [0] Samples.no_groups
               (Samples.people 1)) with
  | Normal st, Normal st' =>
      (List.map (List.map contactPerson) (requests st) = [[0]] /\
       now st = 5000%N /\ List.map due (inflight st) = [6000%N] /\
       results st = [] /\ failed st = []) /\
      (List.map (List.map contactPerson) (requests st') = [[0]] /\
       now st' = 5000%N /\ List.map due (inflight st') = [6000%N] /\
       results st' = [] /\ failed st' = [])
  | _, _ => False
  end.
Proof. vm_compute. repeat split; reflexivity. Qed.

End WriterClaims.


(** ** The import command claims *)

Section CliClaims.

Import Cli.

(** Whatever the command line, [options.limit] is [true] or what it was:
    the parser has no number to put there. *)
Lemma parse_limit argv : forall o,
  limit (parse argv o) = Some true \/ limit (parse argv o) = limit o.
Proof.
  induction argv as [argv IH] using (induction_ltof1 _ (@length string));
    unfold ltof in IH; intros o.
  destruct argv as [|word rest]; [right; reflexivity|].
  cbn [parse]. destruct (String.eqb word "-l" || String.eqb word "--limit").
  - destruct (IH rest ltac:(simpl; lia)
                {| source := source o; destination := destination o;
                   file := file o; limit := Some true;
                   contactGroups := contactGroups o |}) as [H|H];
      left; rewrite H; reflexivity.
  - destruct rest as [|v rest']; [right; reflexivity|].
    repeat match goal with
           | |- context [if ?b then _ else _] => destruct b
           end;
      match goal with
      | |- context [parse rest' ?o'] =>
          destruct (IH rest' ltac:(simpl; lia) o') as [H|H];
            [left; exact H | right; rewrite H; reflexivity]
      | |- context [parse (v :: rest') ?o'] =>
          destruct (IH (v :: rest') ltac:(simpl; lia) o') as [H|H];
            [left; exact H | right; rewrite H; reflexivity]
      end.
Qed.

(** Without the flag every record of the file is imported; with it, the
    first record alone. *)
Lemma limited_all_or_one argv contacts :
  limited (parse argv no_options) contacts = contacts \/
  limited (parse argv no_options) contacts = firstn 1 contacts.
Proof.
  unfold limited. destruct (parse_limit argv no_options) as [H|H]; rewrite H.
  - right. reflexivity.
  - left. reflexivity.
Qed.

Lemma no_limit_imports_all o contacts :
  limit o = None -> limited o contacts = contacts.
Proof. unfold limited. intros ->. reflexivity. Qed.

(** C9 fails on the code: [--limit] is declared without a value, so
    [options.limit] is [true] and [slice(0, true)] keeps one record.
    [--limit 2] on a file of three records imports the first one only. *)
Theorem limit_two_imports_one_record remote :
  limit (parse Samples.import_two no_options) = Some true /\
  import_action remote (parse Samples.import_two no_options)
    (Some [10; 11; 12])
  = Some (Writer.batchCreateContacts remote [10] Samples.no_groups) /\
  limited (parse Samples.import_two no_options) [10; 11; 12]
  ≠ firstn 2 [10; 11; 12].
Proof. repeat split; try reflexivity. discriminate. Qed.

End CliClaims.


(** ** The authorization claim *)

Section AuthClaims.

Import Auth.

Variable TOKENS_DIR : string.
Variable JSON_parse : string -> option json.

(** C10: [authorize] hands over to [getAccessToken] exactly when reading
    the token file fails with [ENOENT]; any other failure of the read, and
    a text that does not parse, is rethrown. *)
Theorem authorize_falls_back_only_on_ENOENT fs accountEmail :
  let tokenPath := getTokenPath TOKENS_DIR accountEmail in
  (forall a,
     authorize TOKENS_DIR JSON_parse fs accountEmail = ViaGetAccessToken a <->
     a = accountEmail /\ fs tokenPath = Throw (SystemError "ENOENT")) /\
  (forall e,
     fs tokenPath = Throw e -> e ≠ SystemError "ENOENT" ->
     authorize TOKENS_DIR JSON_parse fs accountEmail = Rethrown e) /\
  (forall text,
     fs tokenPath = Normal text -> JSON_parse text = None ->
     authorize TOKENS_DIR JSON_parse fs accountEmail = Rethrown SyntaxError).
Proof.
  intros tokenPath. unfold authorize, read_token. fold tokenPath.
  destruct (fs tokenPath) as [text|e] eqn:F.
  - destruct (JSON_parse text) as [token|] eqn:P; simpl.
    + repeat split; try discriminate; try (intros [_ [=]]); congruence.
    + repeat split; try discriminate; try (intros [_ [=]]); congruence.
  - destruct e as [| |c|m]; simpl;
      try (repeat split; try discriminate; try (intros [_ [=]]);
           intros; congruence).
    destruct (decide (Some c = Some "ENOENT")) as [[= ->]|Hne].
    + repeat split; try discriminate; try congruence.
      intros [-> _]. reflexivity.
    + repeat split; try discriminate; try (intros; congruence).
      intros [_ [= ->]]. congruence.
Qed.

End AuthClaims.

Lemma authorize_falls_back_only_on_ENOENT_witness :
  Auth.authorize Samples.tokens_dir Samples.parse_token
    Samples.no_token_file "me@example.org"
  = Auth.ViaGetAccessToken "me@example.org" /\
  Auth.authorize Samples.tokens_dir Samples.parse_token
    Samples.unreadable_token_file "me@example.org"
  = Auth.Rethrown (SystemError "EACCES") /\
  Auth.authorize Samples.tokens_dir Samples.parse_token
    Samples.corrupt_token_file "me@example.org"
  = Auth.Rethrown SyntaxError.
Proof.
  split; [|split].
  - apply (authorize_falls_back_only_on_ENOENT Samples.tokens_dir
             Samples.parse_token Samples.no_token_file "me@example.org").
    split; reflexivity.
  - apply (authorize_falls_back_only_on_ENOENT Samples.tokens_dir
             Samples.parse_token Samples.unreadable_token_file
             "me@example.org"); [reflexivity | discriminate].
  - apply (authorize_falls_back_only_on_ENOENT Samples.tokens_dir
             Samples.parse_token Samples.corrupt_token_file
             "me@example.org" ) with (text := "{ refresh_token: ");
      reflexivity.
Defined.


(* ===================================================================== *)
(** * Further properties of the code *)
(* ===================================================================== *)

(** ** The sanitizer: what survives, and what a throw leaves *)

Section SanitizerMore.

Import Sanitizer Provenance.

Implicit Types (h : heap) (l : loc) (options : Options) (obj : object).

Lemma clean_elems_pointwise xs : forall ys,
  clean_elems xs = (ys, None) ->
  Forall2 (fun x y => objectCleaner x = (y, None)) xs ys.
Proof.
  induction xs as [|x rest IH]; intros ys H.
  - injection H as <-. constructor.
  - apply clean_elems_cons_ok in H.
    destruct H as (v' & rest' & Hv & Hr & ->). constructor; auto.
Qed.

Lemma filter_from_contact_filter xs ys :
  filter_from_contact xs = Normal ys -> ys = List.filter passes xs.
Proof.
  revert ys. induction xs as [|x rest IH]; intros ys; simpl.
  - intros [= <-]. reflexivity.
  - unfold passes at 1.
    destruct (from_contact x) as [keep|e]; [|discriminate].
    destruct (filter_from_contact rest) as [rest'|e]; [|discriminate].
    intros [= <-]. rewrite (IH rest' eq_refl). destruct keep; reflexivity.
Qed.

(** Cleaning changes nothing in a value without identity keys. *)
Lemma objectCleaner_fixed v :
  forall v', objectCleaner v = (v', None) -> has_identity_key v = false ->
             v' = v.
Proof.
  induction v using json_rect' with
    (Q := fun xs => forall xs', clean_elems xs = (xs', None) ->
                                has_identity_key (JArr xs) = false -> xs' = xs)
    (R := fun ps => forall ps', clean_props ps = (ps', None) ->
                                has_identity_key (JObj ps) = false -> ps' = ps);
    try (intros v' [= <-] _; reflexivity).
  - intros v'. rewrite objectCleaner_arr.
    destruct (clean_elems l) as [xs' c] eqn:E. intros [= <- ->] Hk.
    f_equal. auto.
  - intros v'. rewrite objectCleaner_obj.
    destruct (clean_props ps) as [ps' c] eqn:E. intros [= <- ->] Hk.
    f_equal. auto.
  - intros xs' H Hk. apply clean_elems_cons_ok in H.
    destruct H as (v' & rest' & Hv & Hr & ->).
    change (has_identity_key v || has_identity_key (JArr l) = false) in Hk.
    apply orb_false_elim in Hk as [Hk1 Hk2]. f_equal; auto.
  - intros ps' H Hk.
    change (identity_key k || has_identity_key v
            || has_identity_key (JObj ps) = false) in Hk.
    apply orb_false_elim in Hk as [Hk12 Hk3].
    apply orb_false_elim in Hk12 as [Hk1 Hk2].
    apply clean_props_cons_ok in H.
    destruct H as [[Hid _] | (_ & v' & rest' & Hv & Hr & ->)]; [congruence|].
    f_equal; [f_equal|]; auto.
Qed.

(** The only exception of the sanitizer is a [TypeError]. *)
Lemma objectCleaner_throws_TypeError v e :
  snd (objectCleaner v) = Some e -> e = TypeError.
Proof.
  revert e. induction v using json_rect' with
    (Q := fun xs => forall e, snd (clean_elems xs) = Some e -> e = TypeError)
    (R := fun ps => forall e, snd (clean_props ps) = Some e -> e = TypeError);
    try discriminate.
  - intros e [= <-]. reflexivity.
  - intros e. rewrite objectCleaner_arr. destruct (clean_elems l). apply IHv.
  - intros e. rewrite objectCleaner_obj. destruct (clean_props ps). apply IHv.
  - intros e. rewrite clean_elems_cons.
    destruct (objectCleaner v) as [v' [e'|]]; [apply IHv|].
    destruct (clean_elems l). apply IHv0.
  - intros e. rewrite clean_props_cons. destruct (identity_key k); [apply IHv0|].
    destruct (objectCleaner v) as [v' [e'|]]; [apply IHv|].
    destruct (clean_props ps). apply IHv0.
Qed.

Lemma kept_throws_TypeError key obj e : kept key obj = Throw e -> e = TypeError.
Proof.
  unfold kept. destruct (Js.truthy _); [|discriminate].
  destruct (Js.get_prop key obj) as [[| | | |xs|]|]; simpl;
    try (intros [= <-]; reflexivity).
  assert (H : forall ys e', filter_from_contact ys = Throw e' -> e' = TypeError).
  { induction ys as [|y rest IH]; simpl; [discriminate|]. intros e'.
    destruct (from_contact y) as [keep|e0] eqn:F.
    - destruct (filter_from_contact rest) as [|e1]; [discriminate|].
      intros [= <-]. auto.
    - intros [= <-]. unfold from_contact, Js.member in F.
      destruct y; try discriminate. congruence. }
  destruct (filter_from_contact xs) as [ys|e0] eqn:F; [discriminate|].
  intros [= <-]. eauto.
Qed.

(** Of the [names] and of the [emailAddresses] of a record, the returned
    record holds the entries that the callback keeps, each as
    [objectCleaner] leaves it; a value that is no array was falsy and
    stays. *)
Lemma entries_filtered_and_cleaned l options h r h' key :
  key = "names" \/ key = "emailAddresses" ->
  processContact l options h = (Normal r, h') ->
  exists obj rec,
    h !! l = Some obj /\ h' !! r = Some rec /\
    match Js.get_prop key obj with
    | Some (JArr xs) =>
        exists ys,
          Js.get_prop key rec = Some (JArr ys) /\
          Forall2 (fun x y => objectCleaner x = (y, None))
            (List.filter passes xs) ys /\
          Forall (fun y => passes y = true) ys
    | other => Js.truthy other = false /\ Js.get_prop key rec = other
    end.
Proof.
  intros Hkey H. apply processContact_returns in H.
  destruct H as (obj & rec & Hl & Hrec & -> & ->).
  exists obj, rec. split; [exact Hl|]. rewrite lookup_insert_eq.
  split; [reflexivity|].
  pose proof (record_after_ok _ _ _ Hrec) as (o1 & o2 & K1 & K2 & H3).
  assert (Hid : identity_key key = false) by (destruct Hkey; subst; reflexivity).
  pose proof (clean_props_get key _ _ H3 Hid) as G.
  assert (Hne : "memberships" ≠ key) by (destruct Hkey; subst; discriminate).
  rewrite (get_set_other _ _ _ _ Hne) in G.
  (* the field after its own filter, and the record that filter saw *)
  assert (exists o o', kept key o = Normal o' /\
                       Js.get_prop key o = Js.get_prop key obj /\
                       Js.get_prop key o2 = Js.get_prop key o')
    as (o & o' & K & Gin & Gout).
  { destruct Hkey; subst key.
    - exists (stripped obj), o1. split; [exact K1|]. split.
      + apply stripped_get. simpl. intros H.
        repeat (destruct H as [H|H]; try discriminate). exact H.
      + apply (kept_get_other _ _ _ _ K2). discriminate.
    - exists o1, o2. split; [exact K2|]. split; [|reflexivity].
      rewrite (kept_get_other _ _ _ _ K1) by discriminate.
      apply stripped_get. simpl. intros H.
      repeat (destruct H as [H|H]; try discriminate). exact H. }
  rewrite Gout in G. rewrite <- Gin. clear Gout Gin.
  unfold kept in K. destruct (Js.truthy (Js.get_prop key o)) eqn:T.
  - destruct (Js.get_prop key o) as [[| | | |xs|]|]; simpl in K;
      try discriminate.
    destruct (filter_from_contact xs) as [ys0|e] eqn:F; [|discriminate].
    injection K as <-. rewrite get_set_same in G.
    destruct G as (v' & Hv & G). apply objectCleaner_kind in Hv.
    destruct Hv as (ys & -> & Hys). exists ys. split; [exact G|].
    rewrite <- (filter_from_contact_filter _ _ F). split.
    + exact (clean_elems_pointwise _ _ Hys).
    + apply filter_all_pass in F. pose proof (clean_elems_pass _ _ Hys F) as P.
      eapply Forall_impl; [exact P|]. intros y Hy. unfold passes.
      rewrite Hy. reflexivity.
  - injection K as <-.
    destruct (Js.get_prop key o) as [v|] eqn:Gv.
    + destruct G as (v' & Hv & G).
      pose proof (objectCleaner_truthy _ _ Hv) as Tv.
      apply objectCleaner_kind in Hv.
      destruct v; simpl in T; try discriminate; try contradiction;
        subst v'; auto.
    + auto.
Qed.

Lemma cleaned_pointwise xs : forall ys,
  Forall2 (fun x y => objectCleaner x = (y, None)) xs ys ->
  ys = List.map (Expected.without_keys ["id"; "resourceName"]) xs.
Proof.
  induction xs as [|x rest IH]; intros ys H; inversion H; subst;
    [reflexivity|].
  cbn [List.map]. f_equal; [apply objectCleaner_without_keys; assumption|].
  auto.
Qed.

(** X1: of the [names] and of the [emailAddresses] of a record, the
    returned record holds exactly the entries whose
    [metadata.source.type] is [CONTACT], in their order, each without its
    [id] and [resourceName] keys; a value that is no array was falsy and
    stays. *)
Theorem sanitized_entries_are_from_contact l options h r h' key :
  key = "names" \/ key = "emailAddresses" ->
  processContact l options h = (Normal r, h') ->
  exists obj rec,
    h !! l = Some obj /\ h' !! r = Some rec /\
    match Expected.lookup key obj with
    | Some (JArr xs) =>
        Expected.lookup key rec
        = Some (JArr (List.map (Expected.without_keys ["id"; "resourceName"])
                        (List.filter Expected.contact_sourced xs)))
    | other => Js.truthy other = false /\ Expected.lookup key rec = other
    end.
Proof.
  intros Hkey H.
  destruct (entries_filtered_and_cleaned _ _ _ _ _ _ Hkey H)
    as (obj & rec & Hl & Hr & G).
  exists obj, rec. split; [exact Hl|]. split; [exact Hr|].
  rewrite !lookup_get_prop.
  destruct (Js.get_prop key obj) as [[| | | |xs|]|]; try exact G.
  destruct G as (ys & G & Hys & _). rewrite G. do 2 f_equal.
  rewrite (cleaned_pointwise _ _ Hys). f_equal.
  apply List.filter_ext. exact passes_contact_sourced.
Qed.

Lemma sanitized_entries_are_from_contact_witness :
  let run := processContact 0 Samples.no_groups {[ 0 := Samples.ann ]} in
  ("names" = "names" \/ "names" = "emailAddresses") /\
  run = (Normal 0, snd run) /\
  exists obj rec,
    ({[ 0 := Samples.ann ]} : heap) !! 0 = Some obj /\
    snd run !! 0 = Some rec /\
    match Expected.lookup "names" obj with
    | Some (JArr xs) =>
        Expected.lookup "names" rec
        = Some (JArr (List.map (Expected.without_keys ["id"; "resourceName"])
                        (List.filter Expected.contact_sourced xs)))
    | other => Js.truthy other = false /\ Expected.lookup "names" rec = other
    end.
Proof.
  intros run.
  assert (H : run = (Normal 0, snd run)) by (vm_compute; reflexivity).
  split; [left; reflexivity|]. split; [exact H|].
  exact (sanitized_entries_are_from_contact 0 Samples.no_groups _ _ _ "names"
           (or_introl eq_refl) H).
Defined.

(** A field that [processContact] does not handle and whose key is no
    identity key is still there in the returned record, as
    [objectCleaner] leaves it. *)
Lemma other_fields_cleaned l options h r h' key :
  processContact l options h = (Normal r, h') ->
  ~ In key Expected.handled -> identity_key key = false ->
  exists obj rec,
    h !! l = Some obj /\ h' !! r = Some rec /\
    match Js.get_prop key obj with
    | None => Js.get_prop key rec = None
    | Some v =>
        exists v', objectCleaner v = (v', None) /\
                   Js.get_prop key rec = Some v' /\
                   (has_identity_key v = false -> v' = v)
    end.
Proof.
  intros H Hout Hid. apply processContact_returns in H.
  destruct H as (obj & rec & Hl & Hrec & -> & ->).
  exists obj, rec. split; [exact Hl|]. rewrite lookup_insert_eq.
  split; [reflexivity|].
  pose proof (record_after_ok _ _ _ Hrec) as (o1 & o2 & K1 & K2 & H3).
  pose proof (clean_props_get key _ _ H3 Hid) as G.
  unfold Expected.handled in Hout. simpl in Hout.
  rewrite get_set_other in G by (intros <-; apply Hout; tauto).
  rewrite (kept_get_other _ _ _ _ K2) in G by (intros <-; apply Hout; tauto).
  rewrite (kept_get_other _ _ _ _ K1) in G by (intros <-; apply Hout; tauto).
  rewrite stripped_get in G
    by (unfold read_only_fields; simpl; intros E; apply Hout; tauto).
  destruct (Js.get_prop key obj) as [v|]; [|exact G].
  destruct G as (v' & Hv & G). exists v'. repeat split; auto.
  intros Hk. exact (objectCleaner_fixed _ _ Hv Hk).
Qed.

Lemma without_keys_fixed v :
  Expected.mentions_key "id" v = false ->
  Expected.mentions_key "resourceName" v = false ->
  Expected.without_keys ["id"; "resourceName"] v = v.
Proof.
  induction v using json_rect' with
    (Q := fun xs =>
            Expected.mentions_key "id" (JArr xs) = false ->
            Expected.mentions_key "resourceName" (JArr xs) = false ->
            Expected.without_keys ["id"; "resourceName"] (JArr xs) = JArr xs)
    (R := fun ps =>
            Expected.mentions_key "id" (JObj ps) = false ->
            Expected.mentions_key "resourceName" (JObj ps) = false ->
            Expected.without_keys ["id"; "resourceName"] (JObj ps) = JObj ps);
    try reflexivity; try assumption.
  - simpl. intros [Ha Hb]%orb_false_elim [Hc Hd]%orb_false_elim.
    specialize (IHv Ha Hc). specialize (IHv0 Hb Hd). simpl in IHv0.
    injection IHv0 as IHv0. rewrite IHv, IHv0. reflexivity.
  - simpl. intros [[Hk Ha]%orb_false_elim Hb]%orb_false_elim
                  [[Hk' Hc]%orb_false_elim Hd]%orb_false_elim.
    specialize (IHv Ha Hc). specialize (IHv0 Hb Hd). simpl in IHv0.
    injection IHv0 as IHv0. rewrite Hk, Hk', IHv, IHv0. reflexivity.
Qed.

(** X2: a field that the sanitizer does not handle and whose key is not
    [id] or [resourceName] is still there in the returned record, with
    the [id] and [resourceName] keys below it removed; with no such key
    below it, it is unchanged. *)
Theorem sanitize_keeps_other_fields l options h r h' key :
  processContact l options h = (Normal r, h') ->
  ~ In key Expected.handled -> key <> "id" -> key <> "resourceName" ->
  exists obj rec,
    h !! l = Some obj /\ h' !! r = Some rec /\
    match Expected.lookup key obj with
    | None => Expected.lookup key rec = None
    | Some v =>
        Expected.lookup key rec
        = Some (Expected.without_keys ["id"; "resourceName"] v) /\
        (Expected.mentions_key "id" v = false ->
         Expected.mentions_key "resourceName" v = false ->
         Expected.lookup key rec = Some v)
    end.
Proof.
  intros H Hout Hid Hrn.
  assert (Hk : identity_key key = false).
  { unfold identity_key. rewrite !eqb_false_ne by assumption. reflexivity. }
  destruct (other_fields_cleaned _ _ _ _ _ key H Hout Hk)
    as (obj & rec & Hl & Hr & G).
  exists obj, rec. split; [exact Hl|]. split; [exact Hr|].
  rewrite !lookup_get_prop.
  destruct (Js.get_prop key obj) as [v|]; [|exact G].
  destruct G as (v' & Hv & G & _). rewrite G.
  rewrite (objectCleaner_without_keys _ _ Hv). split; [reflexivity|].
  intros Ha Hb. rewrite (without_keys_fixed _ Ha Hb). reflexivity.
Qed.

Lemma sanitize_keeps_other_fields_witness :
  let h0 : heap := {[ 0 := Samples.person 7 ]} in
  let run := processContact 0 Samples.no_groups h0 in
  run = (Normal 0, snd run) /\
  ~ In "userDefined" Expected.handled /\
  "userDefined" <> "id" /\ "userDefined" <> "resourceName" /\
  exists obj rec,
    h0 !! 0 = Some obj /\ snd run !! 0 = Some rec /\
    match Expected.lookup "userDefined" obj with
    | None => Expected.lookup "userDefined" rec = None
    | Some v =>
        Expected.lookup "userDefined" rec
        = Some (Expected.without_keys ["id"; "resourceName"] v) /\
        (Expected.mentions_key "id" v = false ->
         Expected.mentions_key "resourceName" v = false ->
         Expected.lookup "userDefined" rec = Some v)
    end.
Proof.
  intros h0 run.
  assert (H : run = (Normal 0, snd run)) by (vm_compute; reflexivity).
  assert (Hout : ~ In "userDefined" Expected.handled).
  { unfold Expected.handled. simpl. intros E.
    repeat (destruct E as [E|E]; try discriminate). exact E. }
  assert (H1 : "userDefined" <> "id") by discriminate.
  assert (H2 : "userDefined" <> "resourceName") by discriminate.
  split; [exact H|]. split; [exact Hout|]. split; [exact H1|].
  split; [exact H2|].
  exact (sanitize_keeps_other_fields 0 Samples.no_groups h0 _ _ "userDefined"
           H Hout H1 H2).
Defined.

(** X3: on a record that holds no [null] and whose [names] and
    [emailAddresses] are arrays or falsy, [processContact] returns, and
    returns the reference it was given. *)
Theorem sanitize_returns_on_well_formed l options h obj :
  h !! l = Some obj -> well_formed obj = true ->
  exists h', processContact l options h = (Normal l, h').
Proof.
  intros Hl Hwf. destruct (processContact_total l options h obj Hl Hwf) as [rec H].
  eauto.
Qed.

Lemma sanitize_returns_on_well_formed_witness :
  ({[ 0 := Samples.ann ]} : heap) !! 0 = Some Samples.ann /\
  well_formed Samples.ann = true /\
  exists h', processContact 0 Samples.groups_ab {[ 0 := Samples.ann ]}
             = (Normal 0, h').
Proof.
  split; [reflexivity|]. split; [reflexivity|].
  apply (sanitize_returns_on_well_formed 0 Samples.groups_ab
           {[ 0 := Samples.ann ]} Samples.ann); reflexivity.
Defined.

(** X4: when [processContact] throws, it throws a [TypeError], and the
    caller's record is not restored: all its read-only fields are already
    deleted. *)
Theorem sanitize_throw_leaves_record_stripped l options h e h' obj :
  h !! l = Some obj ->
  processContact l options h = (Throw e, h') ->
  e = TypeError /\
  exists rec, h' !! l = Some rec /\
              forall key, In key read_only_fields ->
                          Js.get_prop key rec = None.
Proof.
  intros Hl. rewrite (processContact_run _ _ _ _ Hl). unfold record_after.
  destruct (kept "names" (stripped obj)) as [o1|e1] eqn:K1.
  - assert (A1 : forall key, In key read_only_fields ->
                             Js.get_prop key o1 = None).
    { intros key Hin. rewrite (kept_get_other _ _ _ _ K1).
      - apply stripped_absent, Hin.
      - unfold read_only_fields in Hin. simpl in Hin. intros <-.
        repeat (destruct Hin as [Hin|Hin]; try discriminate). exact Hin. }
    destruct (kept "emailAddresses" o1) as [o2|e2] eqn:K2.
    + set (o3 := Js.set_prop "memberships" (memberships_for options) o2).
      pose proof (objectCleaner_throws_TypeError (JObj o3)) as Ht.
      rewrite objectCleaner_obj in Ht.
      assert (A3 : forall key, In key read_only_fields ->
                               Js.get_prop key (fst (clean_props o3)) = None).
      { intros key Hin. apply clean_props_absent. unfold o3.
        assert (Hne : forall k, In k ["emailAddresses"; "memberships"] ->
                                k ≠ key).
        { unfold read_only_fields in Hin. simpl in *. intros k Hk <-.
          repeat (destruct Hk as [<-|Hk]; [|]);
            repeat (destruct Hin as [Hin|Hin]; try discriminate); tauto. }
        rewrite get_set_other by (apply Hne; simpl; tauto).
        rewrite (kept_get_other _ _ _ _ K2) by (apply Hne; simpl; tauto).
        apply A1, Hin. }
      destruct (clean_props o3) as [rec [e3|]]; simpl in *; [|discriminate].
      intros [= <- <-]. split; [apply Ht; reflexivity|].
      exists rec. rewrite lookup_insert_eq. auto.
    + simpl. intros [= <- <-]. split; [exact (kept_throws_TypeError _ _ _ K2)|].
      exists o1. rewrite lookup_insert_eq. auto.
  - simpl. intros [= <- <-]. split; [exact (kept_throws_TypeError _ _ _ K1)|].
    exists (stripped obj). rewrite lookup_insert_eq.
    split; [reflexivity|]. intros key. apply stripped_absent.
Qed.

Lemma sanitize_throw_leaves_record_stripped_witness :
  let h0 : heap := {[ 0 := Samples.ann_with_null ]} in
  let run := processContact 0 Samples.no_groups h0 in
  h0 !! 0 = Some Samples.ann_with_null /\
  run = (Throw TypeError, snd run) /\
  TypeError = TypeError /\
  exists rec, snd run !! 0 = Some rec /\
              forall key, In key read_only_fields ->
                          Js.get_prop key rec = None.
Proof.
  intros h0 run.
  assert (H : run = (Throw TypeError, snd run)) by (vm_compute; reflexivity).
  split; [reflexivity|]. split; [exact H|].
  exact (sanitize_throw_leaves_record_stripped 0 Samples.no_groups h0 _ _
           Samples.ann_with_null eq_refl H).
Defined.

End SanitizerMore.



(** ** The batch writer: book-keeping, timing, and what is sent *)

Section WriterMore.

Import Writer Accounting.

Implicit Types (st : State) (remote : Remote) (h : heap).




Lemma slice_In {A} (x : A) a b (xs : list A) : In x (Js.slice a b xs) -> In x xs.
Proof.
  unfold Js.slice. rewrite <- !list_elem_of_In. intros H.
  apply (subseteq_drop a), (subseteq_take (b - a)), H.
Qed.

(** What the callbacks of the requests [ps] do to the shared state. *)
Lemma settle_all_effect ps : forall st,
  let st' := List.fold_left settle ps st in
  now st' = now st /\ requests st' = requests st /\
  inflight st' = inflight st /\ progress st' = progress st /\
  length (results st') + length (failed st')
  = length (results st) + length (failed st) + length ps /\
  (forall batch, In batch (failed st') ->
     In batch (failed st) \/ exists p, In p ps /\ sent p = batch).
Proof.
  induction ps as [|p rest IH]; intros st.
  - simpl. repeat split; auto; lia.
  - cbn [List.fold_left]. cbv zeta in *.
    destruct (IH (settle st p)) as (I1 & I2 & I3 & I4 & I5 & I6).
    rewrite I1, I2, I3, I4, I5. unfold settle in *.
    destruct (outcome p) eqn:O; cbn [now requests inflight progress results
                                      failed] in *;
      repeat split; rewrite ?length_app; cbn [length]; try lia.
    + intros batch Hb. destruct (I6 batch Hb) as [H|(q & Hq & <-)]; eauto.
      right. exists q. split; [right; exact Hq | reflexivity].
    + intros batch Hb. destruct (I6 batch Hb) as [H|(q & Hq & <-)].
      * apply List.in_app_or in H as [H|[<-|[]]]; eauto.
        right. exists p. split; [left|]; reflexivity.
      * right. exists q. split; [right; exact Hq | reflexivity].
Qed.



Lemma turn_timed remote h processedContacts st i :
  timed st -> timed (turn remote h processedContacts st i).
Proof.
  intros (T & P). unfold turn, increment, sleep.
  set (batch := Js.slice i (i + BATCH_SIZE) processedContacts).
  set (st1 := submit remote h batch st).
  set (ready := sort_by_due _).
  destruct (settle_all_effect ready st1) as (_ & E2 & _ & E4 & _).
  unfold timed. cbn [now requests progress]. rewrite E2, E4.
  change (requests st1) with (requests st ++ [batch])%list.
  change (progress st1) with (progress st).
  change (now st1) with (now st).
  rewrite List.concat_app, !length_app. cbn [List.concat length].
  rewrite List.app_nil_r, T, P. split; lia.
Qed.

Lemma loop_timed remote h processedContacts ixs : forall st,
  timed st -> timed (List.fold_left (turn remote h processedContacts) ixs st).
Proof.
  induction ixs as [|i rest IH]; intros st H; [exact H|].
  cbn [List.fold_left]. apply IH, turn_timed, H.
Qed.

(** How a returning call decomposes. *)
Lemma batchCreateContacts_returns remote contacts options h st h' :
  batchCreateContacts remote contacts options h = (Normal st, h') ->
  process_all contacts options h
  = (Normal (List.map Build_Entry contacts), h') /\
  st = List.fold_left (turn remote h' (List.map Build_Entry contacts))
         (starts (length contacts)) start.
Proof.
  unfold batchCreateContacts, bind.
  destruct (process_all contacts options h) as [[entries|e] h1] eqn:E;
    [|discriminate].
  intros [= <- <-]. pose proof (process_all_entries _ _ _ _ _ E) as ->.
  rewrite List.length_map. auto.
Qed.

(** *** Records that are already sanitized stay as they are *)

Lemma processContact_keeps_fixed l0 options h r h' l rec :
  Sanitizer.processContact l0 options h = (Normal r, h') ->
  h !! l = Some rec -> Sanitizer.record_after rec options = (rec, None) ->
  h' !! l = Some rec.
Proof.
  intros H Hl Hfix. apply processContact_returns in H.
  destruct H as (obj & rec0 & Hl0 & Hrec0 & -> & ->).
  destruct (decide (l0 = l)) as [->|Hne].
  - rewrite lookup_insert_eq. rewrite Hl in Hl0. injection Hl0 as <-.
    congruence.
  - rewrite lookup_insert_ne by exact Hne. exact Hl.
Qed.

Lemma process_all_keeps_fixed contacts options l rec :
  Sanitizer.record_after rec options = (rec, None) ->
  forall h entries h',
    process_all contacts options h = (Normal entries, h') ->
    h !! l = Some rec -> h' !! l = Some rec.
Proof.
  intros Hfix. induction contacts as [|l0 rest IH]; intros h entries h'.
  - intros [= _ <-]. auto.
  - cbn [process_all]. unfold bind at 1.
    destruct (Sanitizer.processContact l0 options h) as [[r|e] h1] eqn:E;
      [|discriminate].
    unfold bind at 1.
    destruct (process_all rest options h1) as [[es|e] h2] eqn:E';
      [|discriminate].
    intros [= _ <-] Hl. apply (IH _ _ _ E').
    exact (processContact_keeps_fixed _ _ _ _ _ _ _ E Hl Hfix).
Qed.

(** After the [map] over the contacts every one of them is sanitized. *)
Lemma process_all_sanitizes contacts options : forall h entries h',
  process_all contacts options h = (Normal entries, h') ->
  forall l, In l contacts ->
    exists rec, h' !! l = Some rec /\
                Sanitizer.record_after rec options = (rec, None).
Proof.
  induction contacts as [|l0 rest IH]; intros h entries h' H l Hin;
    [destruct Hin|].
  cbn [process_all] in H. unfold bind at 1 in H.
  destruct (Sanitizer.processContact l0 options h) as [[r|e] h1] eqn:E;
    [|discriminate].
  unfold bind at 1 in H.
  destruct (process_all rest options h1) as [[es|e] h2] eqn:E';
    [|discriminate].
  injection H as _ <-.
  destruct (decide (l0 = l)) as [<-|Hne].
  - apply processContact_returns in E.
    destruct E as (obj & rec & _ & Hrec & -> & ->).
    pose proof (record_after_fixed _ _ _ Hrec) as Hfix.
    exists rec. split; [|exact Hfix].
    apply (process_all_keeps_fixed rest options l0 rec Hfix _ _ _ E').
    apply lookup_insert_eq.
  - destruct Hin as [Hin|Hin]; [contradiction|]. exact (IH _ _ _ E' l Hin).
Qed.

Lemma fixed_submittable options rec :
  Sanitizer.record_after rec options = (rec, None) ->
  Expected.submittable (default [] (Sanitizer.contactGroups options)) rec.
Proof.
  intros H.
  destruct (no_identity_key_mentions _ (record_after_clean _ _ _ H))
    as [Hid Hrn].
  repeat split; try assumption.
  - intros key Hin. apply get_none_not_in.
    exact (record_after_read_only _ _ _ key H Hin).
  - rewrite lookup_get_prop, (record_after_memberships _ _ _ H).
    rewrite memberships_for_expected. reflexivity.
Qed.

(** The sanitizer throws nothing but a [TypeError]. *)
Lemma processContact_throws_TypeError l options h e h' :
  Sanitizer.processContact l options h = (Throw e, h') -> e = TypeError.
Proof.
  destruct (h !! l) as [obj|] eqn:Hl.
  - rewrite (processContact_run _ _ _ _ Hl). unfold Sanitizer.record_after.
    destruct (Sanitizer.kept "names" _) as [o1|e1] eqn:K1.
    + destruct (Sanitizer.kept "emailAddresses" o1) as [o2|e2] eqn:K2.
      * set (o3 := Js.set_prop _ _ o2).
        pose proof (objectCleaner_throws_TypeError (JObj o3)) as Ht.
        rewrite objectCleaner_obj in Ht.
        destruct (Sanitizer.clean_props o3) as [rec [e3|]]; simpl in *;
          [|discriminate].
        intros [= <- _]. apply Ht. reflexivity.
      * simpl. intros [= <- _]. exact (kept_throws_TypeError _ _ _ K2).
    + simpl. intros [= <- _]. exact (kept_throws_TypeError _ _ _ K1).
  - rewrite (processContact_dangling _ _ _ Hl). intros [= <- _]. reflexivity.
Qed.

(** Whether the sanitizer throws on a record depends on that record
    alone. *)
Lemma processContact_throws_local l options h e h1 h2 :
  Sanitizer.processContact l options h = (Throw e, h1) ->
  h2 !! l = h !! l ->
  exists h3, Sanitizer.processContact l options h2 = (Throw e, h3).
Proof.
  intros H Heq. destruct (h !! l) as [obj|] eqn:Hl.
  - rewrite (processContact_run _ _ _ _ Hl) in H.
    rewrite (processContact_run _ _ _ _ Heq).
    destruct (snd (Sanitizer.record_after obj options)); [|discriminate].
    injection H as <- _. eauto.
  - rewrite (processContact_dangling _ _ _ Hl) in H. injection H as <- _.
    rewrite (processContact_dangling _ _ _ Heq). eauto.
Qed.

(** X5: whatever the remote end does, the requests that a returning
    [batchCreateContacts] made are the contacts cut into consecutive
    batches of 1 to 25, in input order, none left out. *)
Theorem writer_batches_partition remote contacts options h st h' :
  batchCreateContacts remote contacts options h = (Normal st, h') ->
  List.concat (requests st) = List.map Build_Entry contacts /\
  Forall (fun batch => 1 <= length batch <= BATCH_SIZE) (requests st) /\
  length (requests st) = (length contacts + 24) / 25.
Proof. apply batches_partition. Qed.


(** X7: with a remote end that answers every request in less than 5
    seconds, nothing is in flight at the return, and [results] and
    [failed] together hold one outcome per request. *)
Theorem writer_prompt_remote_settles_all remote contacts options h st h' :
  (forall k persons, (latency (remote k persons) < 5000)%N) ->
  batchCreateContacts remote contacts options h = (Normal st, h') ->
  inflight st = [] /\
  length (results st) + length (failed st) = length (requests st).
Proof.
  intros Hprompt H. apply batchCreateContacts_returns in H as [_ ->].
  destruct (prompt_remote_all_settled remote h' (List.map Build_Entry contacts)
              Hprompt (starts (length contacts)) start eq_refl eq_refl)
    as (H1 & H2 & _).
  auto.
Qed.

(** X8: a returning call has taken 5 seconds per batch, whatever the
    remote end did, and the progress bar has reached the number of
    contacts. *)
Theorem writer_takes_five_seconds_per_batch remote contacts options h st h' :
  batchCreateContacts remote contacts options h = (Normal st, h') ->
  now st = (5000 * N.of_nat ((length contacts + 24) / 25))%N /\
  progress st = length contacts.
Proof.
  intros H. destruct (batches_partition _ _ _ _ _ _ H) as (Hc & _ & Hn).
  apply batchCreateContacts_returns in H as [_ ->].
  destruct (loop_timed remote h' (List.map Build_Entry contacts)
              (starts (length contacts)) start) as (T & P).
  { split; reflexivity. }
  rewrite T, P, Hn, Hc, List.length_map. auto.
Qed.

(** X9: if [processContact] throws on one of the contacts,
    [batchCreateContacts] throws a [TypeError] as a whole, whatever the
    remote end would answer: it returns neither [results] nor [failed],
    also not for the other records. *)
Theorem writer_throws_on_one_bad_record contacts options l e h h1 :
  In l contacts ->
  Sanitizer.processContact l options h = (Throw e, h1) ->
  exists h',
    forall remote,
      batchCreateContacts remote contacts options h = (Throw TypeError, h').
Proof.
  intros Hin Hbad.
  assert (P : exists e' h', process_all contacts options h = (Throw e', h')).
  { revert h h1 Hin Hbad.
    induction contacts as [|l0 rest IH]; intros h h1 Hin Hbad;
      [destruct Hin|].
    cbn [process_all].
    destruct (Sanitizer.processContact l0 options h) as [[r|e0] h2] eqn:E.
    - rewrite (bind_normal _ _ _ _ _ E).
      pose proof (processContact_returns _ _ _ _ _ E)
        as (obj0 & rec0 & Hl0 & Hrec0 & -> & ->).
      destruct (decide (l0 = l)) as [->|Hne]; [congruence|].
      destruct Hin as [Hin|Hin]; [contradiction|].
      destruct (processContact_throws_local _ _ _ _ _ (<[l0 := rec0]> h) Hbad)
        as [h3 Hbad']; [apply lookup_insert_ne; exact Hne|].
      destruct (IH _ _ Hin Hbad') as (e' & h' & P).
      exists e', h'. apply bind_throw. exact P.
    - exists e0, h2. apply bind_throw. exact E. }
  destruct P as (e' & h' & P). exists h'. intros remote.
  unfold batchCreateContacts. apply bind_throw.
  assert (e' = TypeError) as <-; [|exact P].
  clear Hin Hbad. revert h h' P.
  induction contacts as [|l0 rest IH]; intros h h'; [discriminate|].
  cbn [process_all]. unfold bind at 1.
  destruct (Sanitizer.processContact l0 options h) as [[r|e0] h2] eqn:E.
  - unfold bind at 1.
    destruct (process_all rest options h2) as [[es|e1] h3] eqn:E';
      [discriminate|].
    intros [= <- _]. exact (IH _ _ E').
  - intros [= <- _]. exact (processContact_throws_TypeError _ _ _ _ _ E).
Qed.

Lemma sent_persons_submittable remote contacts options h st h' :
  batchCreateContacts remote contacts options h = (Normal st, h') ->
  Forall (fun batch =>
            Forall (Expected.submittable
                      (default [] (Sanitizer.contactGroups options)))
              (body h' batch))
    (requests st).
Proof.
  intros H. apply batchCreateContacts_returns in H as [Hp ->].
  rewrite loop_requests. cbn [requests start app].
  apply Forall_forall. intros batch Hb.
  apply list_elem_of_In, List.in_map_iff in Hb. destruct Hb as (i & <- & _).
  unfold body. apply Forall_forall. intros person Hperson.
  apply list_elem_of_In, List.in_map_iff in Hperson.
  destruct Hperson as (entry & <- & Hentry).
  apply slice_In, List.in_map_iff in Hentry. destruct Hentry as (l & <- & Hl).
  destruct (process_all_sanitizes _ _ _ _ _ Hp l Hl) as (rec & Hrec & Hfix).
  cbn [contactPerson]. rewrite Hrec. exact (fixed_submittable _ _ Hfix).
Qed.

(** X10: every person in every request body of a returning call has
    none of the read-only fields, no [id] or [resourceName] key at any
    depth, and as memberships the default group followed by the groups of
    the [options]; the bodies are read from the heap that the call
    returns. *)
Theorem writer_sends_sanitized_persons remote contacts options h st h' :
  batchCreateContacts remote contacts options h = (Normal st, h') ->
  Forall (fun batch =>
            Forall (Expected.submittable
                      (default [] (Sanitizer.contactGroups options)))
              (body h' batch))
    (requests st).
Proof. apply sent_persons_submittable. Qed.

Lemma writer_batches_partition_witness :
  let run := batchCreateContacts Samples.second_fails_third_slow
               (List.seq 0 53) Samples.no_groups (Samples.people 53) in
  exists st,
    run = (Normal st, snd run) /\
    List.concat (requests st) = List.map Build_Entry (List.seq 0 53) /\
    Forall (fun batch => 1 <= length batch <= BATCH_SIZE) (requests st) /\
    length (requests st) = (length (List.seq 0 53) + 24) / 25.
Proof.
  intros run.
  assert (E : exists st, run = (Normal st, snd run))
    by (vm_compute; eexists; reflexivity).
  destruct E as [st E]. exists st. split; [exact E|].
  exact (writer_batches_partition _ _ _ _ _ _ E).
Defined.


Lemma second_fails_prompt k persons :
  (latency (Samples.second_fails k persons) < 5000)%N.
Proof. destruct k as [|[|k]]; reflexivity. Qed.

Lemma writer_prompt_remote_settles_all_witness :
  let run := batchCreateContacts Samples.second_fails
               (List.seq 0 53) Samples.no_groups (Samples.people 53) in
  (forall k persons, (latency (Samples.second_fails k persons) < 5000)%N) /\
  exists st,
    run = (Normal st, snd run) /\
    inflight st = [] /\
    length (results st) + length (failed st) = length (requests st).
Proof.
  intros run. split; [exact second_fails_prompt|].
  assert (E : exists st, run = (Normal st, snd run))
    by (vm_compute; eexists; reflexivity).
  destruct E as [st E]. exists st. split; [exact E|].
  exact (writer_prompt_remote_settles_all _ _ _ _ _ _ second_fails_prompt E).
Defined.

Lemma writer_takes_five_seconds_per_batch_witness :
  let run := batchCreateContacts Samples.slow
               (List.seq 0 53) Samples.no_groups (Samples.people 53) in
  exists st,
    run = (Normal st, snd run) /\
    now st = (5000 * N.of_nat ((length (List.seq 0 53) + 24) / 25))%N /\
    progress st = length (List.seq 0 53).
Proof.
  intros run.
  assert (E : exists st, run = (Normal st, snd run))
    by (vm_compute; eexists; reflexivity).
  destruct E as [st E]. exists st. split; [exact E|].
  exact (writer_takes_five_seconds_per_batch _ _ _ _ _ _ E).
Defined.

Lemma writer_throws_on_one_bad_record_witness :
  let bad := Sanitizer.processContact 1 Samples.no_groups Samples.two_records in
  In 1 [0; 1] /\
  bad = (Throw TypeError, snd bad) /\
  exists h',
    forall remote,
      batchCreateContacts remote [0; 1] Samples.no_groups Samples.two_records
      = (Throw TypeError, h').
Proof.
  intros bad.
  assert (H1 : In 1 [0; 1]) by (simpl; tauto).
  assert (H2 : bad = (Throw TypeError, snd bad)) by (vm_compute; reflexivity).
  split; [exact H1|]. split; [exact H2|].
  exact (writer_throws_on_one_bad_record [0; 1] Samples.no_groups 1 TypeError
           Samples.two_records _ H1 H2).
Defined.

Lemma writer_sends_sanitized_persons_witness :
  let h0 : heap := {[ 0 := Samples.ann; 1 := Samples.person 1 ]} in
  let run := batchCreateContacts Samples.slow [0; 1] Samples.groups_ab h0 in
  exists st,
    run = (Normal st, snd run) /\
    Forall (fun batch =>
              Forall (Expected.submittable ["a"; "b"]) (body (snd run) batch))
      (requests st).
Proof.
  intros h0 run.
  assert (E : exists st, run = (Normal st, snd run))
    by (vm_compute; eexists; reflexivity).
  destruct E as [st E]. exists st. split; [exact E|].
  exact (writer_sends_sanitized_persons _ _ Samples.groups_ab _ _ _ E).
Defined.

End WriterMore.



(** ** [listContacts]: every page, or none *)

Section FetcherMore.

Import Fetcher Paging.

Lemma listContacts_loop_answers list_connections pages failure :
  forall fuel acc token,
    answers list_connections token pages failure ->
    length pages + match failure with Some _ => 1 | None => 0 end <= fuel ->
    listContacts_loop fuel list_connections acc token
    = Some (match failure with
            | None => Normal (flat (acc ++ pages))
            | Some e => Throw e
            end).
Proof.
  induction pages as [|page more IH]; intros fuel acc token Ha Hfuel.
  - destruct failure as [e|]; [|destruct Ha].
    destruct fuel as [|fuel]; [simpl in Hfuel; lia|].
    cbn [listContacts_loop]. simpl in Ha. rewrite Ha. reflexivity.
  - destruct Ha as (next & Hreq & Hmore).
    destruct fuel as [|fuel]; [simpl in Hfuel; lia|].
    cbn [listContacts_loop]. rewrite Hreq. cbn [connections nextPageToken].
    assert (Hstep : Js.truthy next = true /\
                    answers list_connections next more failure ->
                    (if Js.truthy next
                     then listContacts_loop fuel list_connections
                            (acc ++ [page]) next
                     else Some (Normal (flat (acc ++ [page]))))
                    = Some (match failure with
                            | None => Normal (flat (acc ++ page :: more))
                            | Some e => Throw e
                            end)).
    { intros [T Ha]. rewrite T. rewrite (IH fuel _ next Ha).
      - rewrite <- List.app_assoc. reflexivity.
      - simpl in Hfuel. lia. }
    destruct more as [|page' more']; [destruct failure as [e|]|];
      [exact (Hstep Hmore) | rewrite Hmore; reflexivity | exact (Hstep Hmore)].
Qed.

(** X11: when the remote end answers page after page and ends with a
    response without token, [listContacts] returns the connections of all
    pages, page after page in the order received and within a page in the
    order of the page; a page without [connections] stands as one
    [undefined]. *)
Theorem listContacts_returns_all_pages list_connections pages fuel :
  answers list_connections (Some JNull) pages None ->
  length pages <= fuel ->
  listContacts fuel list_connections
  = Some (Normal
            (List.concat
               (List.map
                  (fun page : option (list json) =>
                     match page with
                     | Some items => List.map Some items
                     | None => [None]
                     end) pages))).
Proof.
  intros Ha Hfuel. unfold listContacts.
  rewrite (listContacts_loop_answers _ pages None fuel [] _ Ha) by lia.
  reflexivity.
Qed.

Lemma three_pages_answers :
  answers (connections_mock Samples.three_pages) (Some JNull)
    [Some [Samples.connection 0; Samples.connection 1];
     Some [Samples.connection 2; Samples.connection 3];
     Some [Samples.connection 4]] None.
Proof.
  exists (Some (JStr "t1")). split; [reflexivity|]. split; [reflexivity|].
  exists (Some (JStr "t2")). split; [reflexivity|]. split; [reflexivity|].
  exists None. split; reflexivity.
Qed.

Lemma listContacts_returns_all_pages_witness :
  answers (connections_mock Samples.three_pages) (Some JNull)
    [Some [Samples.connection 0; Samples.connection 1];
     Some [Samples.connection 2; Samples.connection 3];
     Some [Samples.connection 4]] None /\
  3 <= 3 /\
  listContacts 3 (connections_mock Samples.three_pages)
  = Some (Normal [Some (Samples.connection 0); Some (Samples.connection 1);
                  Some (Samples.connection 2); Some (Samples.connection 3);
                  Some (Samples.connection 4)]).
Proof.
  split; [exact three_pages_answers|]. split; [lia|].
  apply (listContacts_returns_all_pages _ _ 3 three_pages_answers). simpl. lia.
Defined.

(** X12: when a request fails, [listContacts] throws its error, and the
    pages already received are lost: no partial list is returned. *)
Theorem listContacts_failure_discards_pages list_connections pages e fuel :
  answers list_connections (Some JNull) pages (Some e) ->
  length pages < fuel ->
  listContacts fuel list_connections = Some (Throw e).
Proof.
  intros Ha Hfuel. unfold listContacts.
  rewrite (listContacts_loop_answers _ pages (Some e) fuel [] _ Ha) by lia.
  reflexivity.
Qed.

Lemma two_pages_then_failure_answers :
  answers (connections_mock Samples.two_pages_then_failure) (Some JNull)
    [Some [Samples.connection 0; Samples.connection 1];
     Some [Samples.connection 2; Samples.connection 3]]
    (Some (TransportError "invalid page token")).
Proof.
  exists (Some (JStr "t1")). split; [reflexivity|]. split; [reflexivity|].
  exists (Some (JStr "t2")). split; [reflexivity|]. split; reflexivity.
Qed.

Lemma listContacts_failure_discards_pages_witness :
  answers (connections_mock Samples.two_pages_then_failure) (Some JNull)
    [Some [Samples.connection 0; Samples.connection 1];
     Some [Samples.connection 2; Samples.connection 3]]
    (Some (TransportError "invalid page token")) /\
  2 < 3 /\
  listContacts 3 (connections_mock Samples.two_pages_then_failure)
  = Some (Throw (TransportError "invalid page token")).
Proof.
  split; [exact two_pages_then_failure_answers|]. split; [lia|].
  apply (listContacts_failure_discards_pages _ _ _ 3
           two_pages_then_failure_answers). simpl. lia.
Defined.

Lemma flat_undefined_count pages :
  length (List.filter (fun v : value => bool_decide (v = None)) (flat pages))
  = length (List.filter (fun p : option (list json) => bool_decide (p = None))
              pages).
Proof.
  unfold flat. induction pages as [|page more IH]; [reflexivity|].
  cbn [List.map List.concat]. rewrite List.filter_app, length_app, IH.
  destruct page as [items|]; cbn [List.filter bool_decide]; [|reflexivity].
  replace (List.filter _ (List.map Some items)) with (@nil value);
    [reflexivity|].
  induction items as [|x rest IHi]; [reflexivity|]. exact IHi.
Qed.

(** X13: the list that [listContacts] returns holds one [undefined] for
    every response without [connections], and none else; for an account
    without connections it is a list of length 1. *)
Theorem listContacts_undefined_per_empty_page list_connections pages fuel :
  answers list_connections (Some JNull) pages None ->
  length pages <= fuel ->
  exists result,
    listContacts fuel list_connections = Some (Normal result) /\
    length (List.filter (fun v : value => bool_decide (v = None)) result)
    = length (List.filter
                (fun p : option (list json) => bool_decide (p = None)) pages)
    /\ (pages = [None] -> result = [None]).
Proof.
  intros Ha Hfuel. exists (flat pages). split; [|split].
  - unfold listContacts.
    rewrite (listContacts_loop_answers _ pages None fuel [] _ Ha) by lia.
    reflexivity.
  - apply flat_undefined_count.
  - intros ->. reflexivity.
Qed.

Lemma empty_account_answers :
  answers (connections_mock Samples.empty_account) (Some JNull) [None] None.
Proof. exists None. split; reflexivity. Qed.

Lemma listContacts_undefined_per_empty_page_witness :
  answers (connections_mock Samples.empty_account) (Some JNull) [None] None /\
  1 <= 1 /\
  exists result,
    listContacts 1 (connections_mock Samples.empty_account)
    = Some (Normal result) /\
    length (List.filter (fun v : value => bool_decide (v = None)) result)
    = length (List.filter
                (fun p : option (list json) => bool_decide (p = None)) [None])
    /\ (([None] : list (option (list json))) = [None] -> result = [None]).
Proof.
  split; [exact empty_account_answers|]. split; [lia|].
  apply (listContacts_undefined_per_empty_page _ _ 1 empty_account_answers).
  simpl. lia.
Defined.

End FetcherMore.



(** ** Authorization: token files *)

Section AuthMore.

Import Auth AuthFlow.

Lemma string_length_append a s :
  String.length (String.append a s) = String.length a + String.length s.
Proof. induction a as [|c a IH]; simpl; [reflexivity|]. rewrite IH. reflexivity. Qed.

Lemma append_cancel_r s : forall a b,
  String.append a s = String.append b s -> a = b.
Proof.
  induction a as [|c a IH]; intros [|d b] H.
  - reflexivity.
  - apply (f_equal String.length) in H.
    rewrite !string_length_append in H. simpl in H. lia.
  - apply (f_equal String.length) in H.
    rewrite !string_length_append in H. simpl in H. lia.
  - change (String c (String.append a s) = String d (String.append b s)) in H.
    injection H as -> H. f_equal. auto.
Qed.

(** X14: two different accounts never share a token file. *)
Theorem getTokenPath_distinct TOKENS_DIR a b :
  a ≠ b -> getTokenPath TOKENS_DIR a ≠ getTokenPath TOKENS_DIR b.
Proof.
  intros Hne H. apply Hne. unfold getTokenPath in H.
  apply String.app_inj in H. apply String.app_inj in H.
  exact (append_cancel_r _ _ _ H).
Qed.

Lemma getTokenPath_distinct_witness :
  "ann@example.org" ≠ "bob@example.org" /\
  getTokenPath Samples.tokens_dir "ann@example.org"
  ≠ getTokenPath Samples.tokens_dir "bob@example.org".
Proof.
  assert (H : "ann@example.org" ≠ "bob@example.org") by discriminate.
  split; [exact H|]. exact (getTokenPath_distinct Samples.tokens_dir _ _ H).
Defined.

Variable Disk : Type.
Variable existsSync : Disk -> string -> bool.
Variable mkdirSync : string -> Disk -> completion unit * Disk.
Variable writeFileSync : string -> string -> Disk -> completion unit * Disk.
Variable readFileSync : Disk -> FileSystem.
Variable getToken : string -> completion json.
Variable JSON_stringify : json -> string.
Variable JSON_parse : string -> option json.
Variable TOKENS_DIR : string.

(** What the code relies on in the file system: a file that was written
    reads back, and making the tokens directory when it does not exist
    changes what reading a token file in it gives (no such file, before
    and after). *)
Hypothesis read_after_write : forall path text d u d',
  writeFileSync path text d = (Normal u, d') ->
  readFileSync d' path = Normal text.
Hypothesis mkdir_keeps_token_files : forall d c d',
  existsSync d TOKENS_DIR = false ->
  mkdirSync TOKENS_DIR d = (c, d') ->
  forall account,
    Expected.lacks "/" account = true ->
    readFileSync d' (getTokenPath TOKENS_DIR account)
    = readFileSync d (getTokenPath TOKENS_DIR account).

Lemma getAccessToken_stores accountEmail code d token d' :
  getAccessToken Disk existsSync mkdirSync writeFileSync getToken
    JSON_stringify TOKENS_DIR accountEmail code d = (Normal token, d') ->
  readFileSync d' (getTokenPath TOKENS_DIR accountEmail)
  = Normal (JSON_stringify token).
Proof.
  unfold getAccessToken.
  destruct (if existsSync d TOKENS_DIR then (Normal tt, d)
            else mkdirSync TOKENS_DIR d) as [[u|e] d1]; [|discriminate].
  destruct (getToken code) as [t|e]; [|discriminate].
  destruct (writeFileSync _ _ d1) as [[u'|e] d2] eqn:W; [|discriminate].
  intros [= <- <-]. exact (read_after_write _ _ _ _ _ W).
Qed.

(** X15: once [authorize] has returned credentials for an account, from
    the token file or from the interactive flow, the next [authorize] for
    that account returns the same credentials and leaves the disk alone,
    provided the credentials survive [JSON.stringify] and [JSON.parse]. *)
Theorem authorize_reuses_stored_token accountEmail code d token d' :
  authorize_on Disk existsSync mkdirSync writeFileSync readFileSync getToken
    JSON_stringify JSON_parse TOKENS_DIR accountEmail code d
  = (Normal token, d') ->
  JSON_parse (JSON_stringify token) = Some token ->
  forall code',
    authorize_on Disk existsSync mkdirSync writeFileSync readFileSync getToken
      JSON_stringify JSON_parse TOKENS_DIR accountEmail code' d'
    = (Normal token, d').
Proof.
  unfold authorize_on. intros H Hjson code'.
  destruct (authorize TOKENS_DIR JSON_parse (readFileSync d) accountEmail)
    as [t|a|e] eqn:A.
  - injection H as <- <-. rewrite A. reflexivity.
  - assert (a = accountEmail) as ->.
    { unfold authorize in A. destruct (read_token _ _ _); [discriminate|].
      destruct (decide _); congruence. }
    apply getAccessToken_stores in H.
    unfold authorize, read_token. rewrite H, Hjson. reflexivity.
  - discriminate.
Qed.

(** X16: when the token endpoint refuses the code, [getAccessToken]
    throws and has written no token: for every account whose identifier
    has no slash, a later [authorize] ends as it would have ended
    before. *)
Theorem refused_code_writes_no_token accountEmail code d err :
  getToken code = Throw err ->
  let run := getAccessToken Disk existsSync mkdirSync writeFileSync getToken
               JSON_stringify TOKENS_DIR accountEmail code d in
  (exists e, fst run = Throw e) /\
  forall account,
    Expected.lacks "/" account = true ->
    authorize TOKENS_DIR JSON_parse (readFileSync (snd run)) account
    = authorize TOKENS_DIR JSON_parse (readFileSync d) account.
Proof.
  intros Hget run. unfold run, getAccessToken. rewrite Hget.
  destruct (existsSync d TOKENS_DIR) eqn:Ex.
  - simpl. split; [eauto|]. reflexivity.
  - destruct (mkdirSync TOKENS_DIR d) as [[u|e] d1] eqn:Mk; simpl;
      (split; [eauto|]); intros account Hacc; unfold authorize, read_token;
      rewrite (mkdir_keeps_token_files _ _ _ Ex Mk _ Hacc); reflexivity.
Qed.

End AuthMore.

Lemma disk_read_after_write path text (d : Samples.disk) u d' :
  Samples.disk_write path text d = (Normal u, d') ->
  Samples.disk_read d' path = Normal text.
Proof.
  unfold Samples.disk_write, Samples.disk_read. intros [= _ <-]. simpl.
  rewrite lookup_insert_eq. reflexivity.
Qed.

Lemma disk_mkdir_keeps_files dir (d : Samples.disk) c d' :
  Samples.disk_mkdir dir d = (c, d') ->
  forall path, Samples.disk_read d' path = Samples.disk_read d path.
Proof. unfold Samples.disk_mkdir. intros [= _ <-] path. reflexivity. Qed.

Lemma authorize_reuses_stored_token_witness :
  let login code d :=
    AuthFlow.authorize_on Samples.disk Samples.disk_exists Samples.disk_mkdir
      Samples.disk_write Samples.disk_read Samples.exchange
      Samples.stringify_token Samples.parse_token Samples.tokens_dir
      "me@example.org" code d in
  let run := login "4/0AX4" Samples.empty_disk in
  run = (Normal Samples.token, snd run) /\
  Samples.parse_token (Samples.stringify_token Samples.token)
  = Some Samples.token /\
  forall code', login code' (snd run) = (Normal Samples.token, snd run).
Proof.
  intros login run.
  assert (H : run = (Normal Samples.token, snd run))
    by (vm_compute; reflexivity).
  split; [exact H|]. split; [reflexivity|].
  exact (authorize_reuses_stored_token Samples.disk Samples.disk_exists
           Samples.disk_mkdir Samples.disk_write Samples.disk_read
           Samples.exchange Samples.stringify_token Samples.parse_token
           Samples.tokens_dir disk_read_after_write
           "me@example.org" "4/0AX4" Samples.empty_disk Samples.token _
           H eq_refl).
Defined.

Lemma refused_code_writes_no_token_witness :
  Samples.exchange "wrong" = Throw (TransportError "invalid_grant") /\
  let run := AuthFlow.getAccessToken Samples.disk Samples.disk_exists
               Samples.disk_mkdir Samples.disk_write Samples.exchange
               Samples.stringify_token Samples.tokens_dir
               "me@example.org" "wrong" Samples.empty_disk in
  (exists e, fst run = Throw e) /\
  forall account,
    Expected.lacks "/" account = true ->
    Auth.authorize Samples.tokens_dir Samples.parse_token
      (Samples.disk_read (snd run)) account
    = Auth.authorize Samples.tokens_dir Samples.parse_token
        (Samples.disk_read Samples.empty_disk) account.
Proof.
  split; [reflexivity|].
  exact (refused_code_writes_no_token Samples.disk Samples.disk_exists
           Samples.disk_mkdir Samples.disk_write Samples.disk_read
           Samples.exchange Samples.stringify_token Samples.parse_token
           Samples.tokens_dir
           (fun d c d' _ Mk account _ =>
              disk_mkdir_keeps_files Samples.tokens_dir d c d' Mk _)
           "me@example.org" "wrong" Samples.empty_disk _ eq_refl).
Defined.


(** ** The import action *)

Section ImportMore.

Import ImportCmd.

Variable authorize : string -> completion Writer.Remote.


(** *** The groups of [--contact-groups] *)

Lemma append_nil_r s : String.append s "" = s.
Proof.
  induction s as [|c s IH]; [reflexivity|].
  change (String c (String.append s "") = String c s). rewrite IH. reflexivity.
Qed.

Lemma append_assoc a b c :
  String.append (String.append a b) c = String.append a (String.append b c).
Proof.
  induction a as [|x a IH]; [reflexivity|].
  change (String x (String.append (String.append a b) c)
          = String x (String.append a (String.append b c))).
  rewrite IH. reflexivity.
Qed.

Lemma split_from_group group : forall s word,
  Expected.lacks "," group = true ->
  Cli.split_from (String.append group s) word
  = Cli.split_from s (String.append word group).
Proof.
  induction group as [|c group IH]; intros s word H.
  - rewrite append_nil_r. reflexivity.
  - cbn [Expected.lacks] in H. apply andb_prop in H as [Hc Hg].
    change (String.append (String c group) s)
      with (String c (String.append group s)).
    cbn [Cli.split_from].
    replace (Ascii.eqb c (Ascii.ascii_of_nat 44)) with false.
    + rewrite (IH _ _ Hg), append_assoc. reflexivity.
    + symmetry. apply negb_true_iff in Hc.
      destruct (Ascii.eqb c (Ascii.ascii_of_nat 44)) eqn:E; [|reflexivity].
      apply Ascii.eqb_eq in E. subst c. vm_compute in Hc. discriminate.
Qed.

(** Splitting the joined names at the commas gives the names back. *)
Lemma split_join groups : forall word,
  groups <> [] ->
  Forall (fun group => Expected.lacks "," group = true) groups ->
  Cli.split_from (Expected.join_comma groups) word
  = match groups with
    | [] => []
    | group :: rest => String.append word group :: rest
    end.
Proof.
  induction groups as [|group rest IH]; intros word Hne Hall; [congruence|].
  inversion Hall as [|? ? Hg Hrest]; subst.
  destruct rest as [|group' rest'].
  - cbn [Expected.join_comma].
    rewrite <- (append_nil_r group) at 1.
    rewrite (split_from_group _ _ _ Hg). reflexivity.
  - change (Expected.join_comma (group :: group' :: rest'))
      with (String.append group
              (String.append "," (Expected.join_comma (group' :: rest')))).
    rewrite (split_from_group _ _ _ Hg).
    change (String.append "," (Expected.join_comma (group' :: rest')))
      with (String (Ascii.ascii_of_nat 44)
              (Expected.join_comma (group' :: rest'))).
    cbn [Cli.split_from]. rewrite Ascii.eqb_refl.
    rewrite (IH "" ltac:(discriminate) Hrest). reflexivity.
Qed.

Lemma named_groups_split arg groups :
  Expected.names_groups arg groups ->
  default [] (option_map Cli.split_comma arg) = groups.
Proof.
  destruct arg as [s|]; simpl.
  - intros (-> & Hne & Hall). unfold Cli.split_comma.
    rewrite (split_join _ "" Hne Hall).
    destruct groups; [exfalso; apply Hne; reflexivity | reflexivity].
  - intros ->. reflexivity.
Qed.

(** X18: when the later version has run the writer, the file was read;
    the requests carry its records in order, all of them without
    [--limit] and the first one alone with it; and every person sent has
    none of the read-only fields, no [id] or [resourceName] key at any
    depth, and as memberships the default group followed by the groups
    that [--contact-groups] names, separated by commas. *)
Theorem import_sends_sanitized_persons options parsed h st h' groups :
  import_split_first authorize options parsed h = (Imported st, h') ->
  Expected.names_groups (Cli.contactGroups options) groups ->
  exists contacts,
    parsed = Some (Normal contacts) /\
    List.concat (Writer.requests st)
    = List.map Writer.Build_Entry
        (match Cli.limit options with
         | Some true => firstn 1 contacts
         | _ => contacts
         end) /\
    Forall (fun batch =>
              Forall (Expected.submittable groups) (Writer.body h' batch))
      (Writer.requests st).
Proof.
  unfold import_split_first, import_checked, import_file.
  destruct (negb (given (Cli.destination options))); [discriminate|].
  destruct (given (Cli.file options));
    [|destruct (given (Cli.source options)); discriminate].
  destruct parsed as [[contacts|e]|]; try discriminate.
  destruct (authorize _) as [remote|e]; [|discriminate].
  destruct (Writer.batchCreateContacts _ _ _ h) as [[st0|e] h0] eqn:B;
    [|discriminate].
  intros [= <- <-] Hgroups. exists contacts. split; [reflexivity|]. split.
  - rewrite (proj1 (batches_partition _ _ _ _ _ _ B)). f_equal.
    unfold Cli.limited. destruct (Cli.limit options) as [[|]|]; reflexivity.
  - pose proof (sent_persons_submittable _ _ _ _ _ _ B) as S.
    cbn [Sanitizer.contactGroups] in S.
    rewrite (named_groups_split _ _ Hgroups) in S. exact S.
Qed.

End ImportMore.

Lemma import_sends_sanitized_persons_witness :
  let run := ImportCmd.import_split_first Samples.authorized_slow
               Samples.import_two_groups (Some (Normal [0; 1]))
               Samples.two_to_import in
  Expected.names_groups (Cli.contactGroups Samples.import_two_groups)
    ["friends"; "family"] /\
  exists st,
    run = (ImportCmd.Imported st, snd run) /\
    exists contacts,
      Some (Normal [0; 1]) = Some (Normal contacts) /\
      List.concat (Writer.requests st)
      = List.map Writer.Build_Entry
          (match Cli.limit Samples.import_two_groups with
           | Some true => firstn 1 contacts
           | _ => contacts
           end) /\
      Forall (fun batch =>
                Forall (Expected.submittable ["friends"; "family"])
                  (Writer.body (snd run) batch))
        (Writer.requests st).
Proof.
  intros run.
  assert (G : Expected.names_groups
                (Cli.contactGroups Samples.import_two_groups)
                ["friends"; "family"]).
  { split; [reflexivity|]. split; [discriminate|].
    repeat constructor. }
  assert (E : exists st, run = (ImportCmd.Imported st, snd run))
    by (vm_compute; eexists; reflexivity).
  split; [exact G|].
  destruct E as [st E]. exists st. split; [exact E|].
  exact (import_sends_sanitized_persons Samples.authorized_slow
           Samples.import_two_groups _ _ _ _ _ E G).
Defined.

(** The same command line in the two versions: without
    [--contact-groups] the earlier one rejects after authorizing, the
    later one imports. *)
Example import_plain_in_both_versions :
  ImportCmd.import_split_late Samples.authorized_slow Samples.import_plain
    (Some (Normal [0; 1])) Samples.two_to_import
  = (ImportCmd.Rejects TypeError, Samples.two_to_import) /\
  exists st h',
    ImportCmd.import_split_first Samples.authorized_slow Samples.import_plain
      (Some (Normal [0; 1])) Samples.two_to_import
    = (ImportCmd.Imported st, h').
Proof. split; [reflexivity|]. vm_compute. eexists. eexists. reflexivity. Qed.
